(** * Graph analytics: the stub analyzer and the library-backed analyzer

    A shallow embedding of [src/models/analyzer.py] (module [Analyzer]) and
    of the methods of [src/models/graph_analyzer.py] that do work of their
    own around the library calls (module [NxAnalyzer]: the dispatches on a
    name, the numbering of communities, the regrouping done by
    [calculate_modularity] and the rankings of [get_top_nodes] and
    [predict_links]), with the properties the specification states about
    them and further properties read off the code.

    Conventions of the embedding
    - a Python [set] of node names is a [gset string]; wherever the source
      iterates over it ([for node in self.nodes], [list(self.nodes)]) the
      iteration order is the section variable [set_iter], about which only
      "it lists exactly the members, each once" is assumed;
    - a Python [dict] is a [gmap]; [d[k]] on a missing key raises [KeyError];
    - [int] is [Z]; a [float] is an exact rational [Q] (the source only
      divides two integers and compares against 0 and 1);
    - a method is a function from the receiver's state to an outcome (a
      returned value or a raised exception) and the receiver's new state;
    - the module-level generator of [random] is an explicit [RandomState];
    - the order in which a [dict] is iterated is likewise a parameter of
      which only "every entry, once" is assumed. *)

From Stdlib Require Import QArith.
From stdpp Require Import base gmap sets list strings sorting.

Local Open Scope Z_scope.
Set Warnings "-clear-no-such-hyp".

(** ** Exceptions and outcomes *)

(** [KeyError] and [ValueError] are the two exceptions the source can raise
    itself; [LibraryError] stands for whatever a library function raises. *)
Inductive Exception : Type :=
  | KeyError (key : string)
  | ValueError (msg : string)
  | LibraryError (name : string).

Inductive Outcome (A : Type) : Type :=
  | Returned (a : A)
  | Raised (e : Exception).
Arguments Returned {A} a.
Arguments Raised {A} e.

Definition raises {A} (o : Outcome A) : Prop := ∃ e, o = Raised e.

Module Analyzer.

(** ** The receiver: [GraphAnalyzer.__init__] *)

Record GraphAnalyzer : Type := mkGraphAnalyzer {
  directed : bool;
  nodes : gset string;
  edges : list (string * string * Q);
  adjacency : gmap string (list string)
}.

Definition init (directed : bool) : GraphAnalyzer :=
  {| directed := directed; nodes := ∅; edges := []; adjacency := ∅ |}.

Definition with_nodes (f : gset string → gset string) (self : GraphAnalyzer) :=
  {| directed := directed self; nodes := f (nodes self);
     edges := edges self; adjacency := adjacency self |}.
Definition with_edges (f : list (string * string * Q) → list (string * string * Q))
    (self : GraphAnalyzer) :=
  {| directed := directed self; nodes := nodes self;
     edges := f (edges self); adjacency := adjacency self |}.
Definition with_adjacency (f : gmap string (list string) → gmap string (list string))
    (self : GraphAnalyzer) :=
  {| directed := directed self; nodes := nodes self;
     edges := edges self; adjacency := f (adjacency self) |}.

(** ** Methods: state of the receiver in, outcome and state out *)

Definition Method (A : Type) : Type := GraphAnalyzer → Outcome A * GraphAnalyzer.

Definition ret {A} (a : A) : Method A := λ self, (Returned a, self).
Definition raise {A} (e : Exception) : Method A := λ self, (Raised e, self).
Definition bind {A B} (m : Method A) (k : A → Method B) : Method B :=
  λ self, match m self with
          | (Returned a, self') => k a self'
          | (Raised e, self') => (Raised e, self')
          end.
Definition get : Method GraphAnalyzer := λ self, (Returned self, self).
Definition modify (f : GraphAnalyzer → GraphAnalyzer) : Method unit :=
  λ self, (Returned tt, f self).

Notation "x <- m ;; k" := (bind m (λ x, k))
  (at level 100, m at next level, right associativity).
Notation "m ;;; k" := (bind m (λ _, k))
  (at level 100, right associativity).

(** [for x in xs: body x] *)
Fixpoint for_each {A} (xs : list A) (body : A → Method unit) : Method unit :=
  match xs with
  | [] => ret tt
  | x :: xs' => body x ;;; for_each xs' body
  end.

(** [self.adjacency[key].append(value)]: the subscript raises [KeyError]
    when [key] is missing, otherwise the list stored there grows at its end. *)
Definition adjacency_append (key value : string) : Method unit :=
  self <- get ;;
  match adjacency self !! key with
  | None => raise (KeyError key)
  | Some l => modify (with_adjacency (<[key := l ++ [value]]>))
  end.

(** [add_node] *)
Definition add_node (node : string) : Method unit :=
  modify (with_nodes (λ s, {[node]} ∪ s)) ;;;
  self <- get ;;
  match adjacency self !! node with
  | None => modify (with_adjacency (<[node := []]>))
  | Some _ => ret tt
  end.

(** [add_edge] *)
Definition add_edge (source target : string) (weight : Q) : Method unit :=
  add_node source ;;;
  add_node target ;;;
  modify (with_edges (λ es, es ++ [(source, target, weight)])) ;;;
  adjacency_append source target ;;;
  self <- get ;;
  if negb (directed self) then adjacency_append target source else ret tt.

(** [shortest_path] *)
Definition shortest_path (source target : string) : Method (option (list string)) :=
  self <- get ;;
  if bool_decide (source ∉ nodes self) || bool_decide (target ∉ nodes self)
  then ret None
  else ret (Some [source; target]).

(** The record returned by [process]: its keys ['num_nodes'], ['num_edges']
    and ['density']. *)
Record Report : Type := mkReport {
  num_nodes : Z;
  num_edges : Z;
  density : Q
}.

(** [process]: every edge is added with the default weight [1.0]. *)
Definition process (edge_list : list (string * string)) : Method Report :=
  for_each edge_list (λ edge, add_edge edge.1 edge.2 1%Q) ;;;
  self <- get ;;
  let n := Z.of_nat (size (nodes self)) in
  let m := Z.of_nat (length (edges self)) in
  ret {| num_nodes := n;
         num_edges := m;
         density := if 1 <? n then (inject_Z m / inject_Z (n * (n - 1)))%Q
                    else 0%Q |}.

(** ** The generator behind [random.uniform] *)

(** The state of the module-level generator: the values [random()] will
    return, and how many of them have been consumed. *)
Record RandomState : Type := mkRandomState {
  tape : nat → Q;
  cursor : nat
}.

Definition random (rng : RandomState) : Q * RandomState :=
  (tape rng (cursor rng), {| tape := tape rng; cursor := S (cursor rng) |}).

(** [random.uniform(a, b)] is [a + (b - a) * random()]. *)
Definition uniform (a b : Q) (rng : RandomState) : Q * RandomState :=
  let (r, rng') := random rng in ((a + (b - a) * r)%Q, rng').

Section Iteration.

(** The order in which a set of node names is iterated. *)
Variable set_iter : gset string → list string.

(** [{key: value(key) for key in keys}] *)
Definition dict_comprehension {V} (value : string → V) (keys : list string)
    : gmap string V :=
  foldl (λ d key, <[key := value key]> d) ∅ keys.

(** [degree_centrality] *)
Definition degree_centrality : Method (gmap string Q) :=
  self <- get ;;
  let n := Z.of_nat (size (nodes self)) in
  if n <=? 1 then ret (dict_comprehension (λ _, 0%Q) (set_iter (nodes self)))
  else
    ret (foldl (λ centrality node,
                  let degree :=
                    Z.of_nat (length (default [] (adjacency self !! node))) in
                  <[node := (inject_Z degree / inject_Z (n - 1))%Q]> centrality)
               ∅ (set_iter (nodes self))).

(** [betweenness_centrality]: one draw of [random.uniform(0, 1)] per node,
    in iteration order. *)
Definition betweenness_centrality (rng : RandomState)
    : Method (gmap string Q * RandomState) :=
  self <- get ;;
  ret (foldl (λ '(d, rng) node,
                let (v, rng') := uniform 0 1 rng in (<[node := v]> d, rng'))
             (∅, rng) (set_iter (nodes self))).

(** [detect_communities]: the argument [method] is not read. *)
Definition detect_communities (method : string) : Method (list (gset string)) :=
  self <- get ;;
  let nodes_list := set_iter (nodes self) in
  let mid := (length nodes_list / 2)%nat in
  ret [list_to_set (take mid nodes_list); list_to_set (drop mid nodes_list)].

End Iteration.

(** ** Notions the properties are stated with *)

(** What is assumed of an iteration order: it lists the members of the set,
    each exactly once. *)
Definition iteration_order (set_iter : gset string → list string) : Prop :=
  ∀ s, set_iter s ≡ₚ elements s.

(** The invariant of the graph store: every stored edge joins two nodes,
    every adjacency key is a node and so is every neighbour listed. *)
Definition edges_closed (self : GraphAnalyzer) : Prop :=
  ∀ source target weight,
    (source, target, weight) ∈ edges self →
    source ∈ nodes self ∧ target ∈ nodes self.
Definition closed_in (N : gset string) (adj : gmap string (list string)) : Prop :=
  ∀ key neighbours,
    adj !! key = Some neighbours →
    key ∈ N ∧ ∀ x, x ∈ neighbours → x ∈ N.
Definition adjacency_closed (self : GraphAnalyzer) : Prop :=
  closed_in (nodes self) (adjacency self).
Definition store_invariant (self : GraphAnalyzer) : Prop :=
  edges_closed self ∧ adjacency_closed self.

(** The state a method leaves behind. *)
Definition exec {A} (m : Method A) (self : GraphAnalyzer) : GraphAnalyzer :=
  (m self).2.

(** The graphs a caller can build: a fresh analyzer, then any sequence of
    [add_node] and [add_edge] calls. *)
Inductive reachable : GraphAnalyzer → Prop :=
  | reachable_init d : reachable (init d)
  | reachable_add_node self node :
      reachable self → reachable (exec (add_node node) self)
  | reachable_add_edge self source target weight :
      reachable self → reachable (exec (add_edge source target weight) self).

(** Connectivity as the specification words it: two nodes lie in the same
    component when a chain of adjacency entries, read in either direction,
    joins them. *)
Definition linked (self : GraphAnalyzer) (a b : string) : Prop :=
  (∃ l, adjacency self !! a = Some l ∧ b ∈ l) ∨
  (∃ l, adjacency self !! b = Some l ∧ a ∈ l).
Definition same_component (self : GraphAnalyzer) (a b : string) : Prop :=
  rtc (linked self) a b.

(** A graph is simple when no adjacency list repeats a neighbour or names
    its own node: no parallel edges and no self-loops. *)
Definition simple (self : GraphAnalyzer) : Prop :=
  map_Forall (λ key neighbours, NoDup neighbours ∧ key ∉ neighbours)
             (adjacency self).

(** The score [degree_centrality] gives a node, and the density [process]
    reports for [n] nodes and [m] edges. *)
Definition degree_score (self : GraphAnalyzer) (node : string) : Q :=
  if Z.of_nat (size (nodes self)) <=? 1 then 0%Q
  else (inject_Z (Z.of_nat (length (default [] (adjacency self !! node))))
        / inject_Z (Z.of_nat (size (nodes self)) - 1))%Q.
Definition density_of (n m : Z) : Q :=
  if 1 <? n then (inject_Z m / inject_Z (n * (n - 1)))%Q else 0%Q.
Definition count_nodes (self : GraphAnalyzer) : Z := Z.of_nat (size (nodes self)).
Definition count_edges (self : GraphAnalyzer) : Z := Z.of_nat (length (edges self)).

(** The state after [add_edge(edge[0], edge[1])] for each listed edge in
    turn, and the node names a list of edges mentions. *)
Definition add_edges (edge_list : list (string * string)) (self : GraphAnalyzer)
    : GraphAnalyzer :=
  foldl (λ g edge, exec (add_edge edge.1 edge.2 1%Q) g) self edge_list.
Definition endpoints (edge_list : list (string * string)) : gset string :=
  list_to_set (flat_map (λ edge, [edge.1; edge.2]) edge_list).

(** ** Sample analyzers *)

(** An isolated node and the path a - b - c. *)
Definition sample_graph : GraphAnalyzer :=
  exec (add_edge "b" "c" 1%Q)
    (exec (add_edge "a" "b" 1%Q) (exec (add_node "z") (init false))).

(** The edge a - b added twice. *)
Definition parallel_graph : GraphAnalyzer :=
  exec (add_edge "a" "b" 1%Q) (exec (add_edge "a" "b" 1%Q) (init false)).

(** Two disjoint triangles a - b - c and d - e - f. *)
Definition two_triangles : GraphAnalyzer :=
  add_edges [("a", "b"); ("b", "c"); ("c", "a");
             ("d", "e"); ("e", "f"); ("f", "d")] (init false).

(** A single node. *)
Definition single_node : GraphAnalyzer := exec (add_node "a") (init false).

(** A generator whose next values are 1/2, 1/3, 1/4, ... *)
Definition sample_rng : RandomState :=
  {| tape := λ i, (1 # Pos.of_succ_nat (S i))%Q; cursor := 0 |}.

(** ** [evaluate] and the notions its properties are stated with *)

Section Evaluate.

Variable set_iter : gset string → list string.

(** [evaluate]: the two membership tests in turn; a metric name other than
    the two tested is never looked at. The generator is threaded through
    because [betweenness_centrality] draws from it. *)
Definition evaluate (metrics : list string) (rng : RandomState)
    : Method (gmap string (gmap string Q) * RandomState) :=
  results <-
    (if bool_decide ("degree_centrality" ∈ metrics)
     then scores <- degree_centrality set_iter ;;
          ret (<["degree_centrality" := scores]> ∅)
     else ret ∅) ;;
  if bool_decide ("betweenness_centrality" ∈ metrics)
  then drawn <- betweenness_centrality set_iter rng ;;
       ret (<["betweenness_centrality" := drawn.1]> results, drawn.2)
  else ret (results, rng).

End Evaluate.

(** [self.adjacency.get(node, [])] *)
Definition neighbours (self : GraphAnalyzer) (node : string) : list string :=
  default [] (adjacency self !! node).

(** The entries one stored edge puts on the neighbour list of [node]: its
    target when [node] is its source and, in an undirected graph, its source
    when [node] is its target. *)
Definition edge_entries (is_directed : bool) (node : string)
    (edge : string * string * Q) : list string :=
  (if decide (edge.1.1 = node) then [edge.1.2] else [])
  ++ (if negb is_directed && bool_decide (edge.1.2 = node)
      then [edge.1.1] else []).

(** How many stored edges leave [node], and how many arrive at it. *)
Definition out_count (node : string) (es : list (string * string * Q)) : nat :=
  length (filter (λ edge, edge.1.1 = node) es).
Definition in_count (node : string) (es : list (string * string * Q)) : nat :=
  length (filter (λ edge, edge.1.2 = node) es).

(** The sum over all nodes of the lengths of their neighbour lists. *)
Definition degree_sum (self : GraphAnalyzer) : nat :=
  sum_list ((λ node, length (neighbours self node)) <$> elements (nodes self)).

(** A generator is well behaved when every value of [random()] lies in
    [0, 1). *)
Definition unit_interval (rng : RandomState) : Prop :=
  ∀ i, (0 <= tape rng i)%Q ∧ (tape rng i < 1)%Q.

(** A directed analyzer: the edges a -> b and c -> a. *)
Definition directed_sample : GraphAnalyzer :=
  exec (add_edge "c" "a" 1%Q) (exec (add_edge "a" "b" 1%Q) (init true)).

End Analyzer.

(** * The library-backed analyzer: dispatch on a name *)

Module NxAnalyzer.

Section Library.

(** The graph object of the library, its node type and the score mapping
    its centrality functions return. *)
Context {Graph Node Scores : Type} `{Countable Node}.

(** The library functions the methods delegate to; each may raise. *)
Variable nx_degree_centrality : Graph → Outcome Scores.
Variable nx_betweenness_centrality : Graph → Outcome Scores.
Variable nx_closeness_centrality : Graph → Outcome Scores.
Variable nx_eigenvector_centrality : Graph → Z → Outcome Scores.
Variable nx_pagerank : Graph → Outcome Scores.
Variable best_partition : Graph → Outcome (gmap Node nat).
Variable label_propagation_communities : Graph → Outcome (list (list Node)).
Variable greedy_modularity_communities : Graph → Outcome (list (list Node)).

(** [calculate_centrality] (the calls to the logger are left out) *)
Definition calculate_centrality (graph : Graph) (measure : string)
    : Outcome Scores :=
  if decide (measure = "degree") then nx_degree_centrality graph
  else if decide (measure = "betweenness") then nx_betweenness_centrality graph
  else if decide (measure = "closeness") then nx_closeness_centrality graph
  else if decide (measure = "eigenvector")
       then nx_eigenvector_centrality graph 1000
  else if decide (measure = "pagerank") then nx_pagerank graph
  else Raised (ValueError ("Unknown centrality measure: " +:+ measure)).

(** [for idx, community in enumerate(communities_gen):
       for node in community: communities[node] = idx] *)
Definition number_communities (communities_gen : list (list Node))
    : gmap Node nat :=
  foldl (λ communities '(idx, community),
           foldl (λ c node, <[node := idx]> c) communities community)
        ∅ (imap (λ idx community, (idx, community)) communities_gen).

Definition outcome_map {A B} (f : A → B) (o : Outcome A) : Outcome B :=
  match o with
  | Returned a => Returned (f a)
  | Raised e => Raised e
  end.

(** [detect_communities] (the calls to the logger are left out) *)
Definition detect_communities (graph : Graph) (algorithm : string)
    : Outcome (gmap Node nat) :=
  if decide (algorithm = "louvain") then best_partition graph
  else if decide (algorithm = "label_propagation")
       then outcome_map number_communities (label_propagation_communities graph)
  else if decide (algorithm = "greedy_modularity")
       then outcome_map number_communities (greedy_modularity_communities graph)
  else Raised (ValueError ("Unknown algorithm: " +:+ algorithm)).

End Library.

(** A stand-in library on the one-point graph: every function returns an
    empty result. *)
Definition unit_scores (_ : unit) : Outcome unit := Returned tt.
Definition unit_scores_iter (_ : unit) (_ : Z) : Outcome unit := Returned tt.
Definition unit_partition (_ : unit) : Outcome (gmap string nat) := Returned ∅.
Definition unit_communities (_ : unit) : Outcome (list (list string)) :=
  Returned [].

(** The names each dispatch recognizes. *)
Definition centrality_measures : list string :=
  ["degree"; "betweenness"; "closeness"; "eigenvector"; "pagerank"].
Definition community_algorithms : list string :=
  ["louvain"; "label_propagation"; "greedy_modularity"].

(** ** Ranking: [sorted(..., key=..., reverse=True)[:k]] *)

(** [sorted(l, key=key, reverse=True)]: descending by key; the sort is
    stable, entries with equal keys keep the order they had in [l]. *)
Fixpoint insert_desc {A} (key : A → Q) (x : A) (l : list A) : list A :=
  match l with
  | [] => [x]
  | y :: l' => if Qle_bool (key y) (key x) then x :: y :: l'
               else y :: insert_desc key x l'
  end.
Definition sorted_desc {A} (key : A → Q) (l : list A) : list A :=
  foldr (insert_desc key) [] l.

(** [l[:k]]: the first [k] entries, and for a negative [k] all but the last
    [-k] entries. *)
Definition slice_to {A} (l : list A) (k : Z) : list A :=
  if 0 <=? k then take (Z.to_nat k) l
  else take (length l - Z.to_nat (- k)) l.

Definition top_k {A} (key : A → Q) (l : list A) (k : Z) : list A :=
  slice_to (sorted_desc key l) k.

Section Ranking.

Context {Graph Node Scores : Type}.

(** The centrality functions of the library, and [centrality.items()]. *)
Variable nx_degree_centrality : Graph → Outcome Scores.
Variable nx_betweenness_centrality : Graph → Outcome Scores.
Variable nx_closeness_centrality : Graph → Outcome Scores.
Variable nx_eigenvector_centrality : Graph → Z → Outcome Scores.
Variable nx_pagerank : Graph → Outcome Scores.
Variable scores_items : Scores → list (Node * Q).

(** [get_top_nodes] *)
Definition get_top_nodes (graph : Graph) (centrality_measure : string) (k : Z)
    : Outcome (list (Node * Q)) :=
  outcome_map
    (λ centrality, top_k snd (scores_items centrality) k)
    (calculate_centrality nx_degree_centrality nx_betweenness_centrality
       nx_closeness_centrality nx_eigenvector_centrality nx_pagerank
       graph centrality_measure).

(** The link predictors of the library; each yields triples
    [(node1, node2, score)]. *)
Variable nx_common_neighbor_centrality : Graph → Outcome (list (Node * Node * Q)).
Variable nx_jaccard_coefficient : Graph → Outcome (list (Node * Node * Q)).
Variable nx_adamic_adar_index : Graph → Outcome (list (Node * Node * Q)).
Variable nx_preferential_attachment : Graph → Outcome (list (Node * Node * Q)).

(** [predict_links] (the call to the logger is left out) *)
Definition predict_links (graph : Graph) (method : string) (k : Z)
    : Outcome (list (Node * Node * Q)) :=
  let preds :=
    if decide (method = "common_neighbors")
    then nx_common_neighbor_centrality graph
    else if decide (method = "jaccard") then nx_jaccard_coefficient graph
    else if decide (method = "adamic_adar") then nx_adamic_adar_index graph
    else if decide (method = "preferential_attachment")
         then nx_preferential_attachment graph
    else Raised (ValueError ("Unknown method: " +:+ method)) in
  outcome_map (λ preds, top_k snd preds k) preds.

End Ranking.

Definition link_methods : list string :=
  ["common_neighbors"; "jaccard"; "adamic_adar"; "preferential_attachment"].

(** ** [calculate_modularity] *)

Section Modularity.

Context {Graph Node : Type} `{Countable Node}.

(** The library's modularity, and the orders in which the two dictionaries
    are iterated: [communities.items()] and [community_sets.values()]. *)
Variable nx_modularity : Graph → list (gset Node) → Outcome Q.
Variable dict_items : gmap Node nat → list (Node * nat).
Variable dict_values : gmap nat (gset Node) → list (gset Node).

(** The loop that turns the assignment into sets: an id seen for the first
    time gets an empty set, then the node is added to the set of its id. *)
Definition community_sets (items : list (Node * nat)) : gmap nat (gset Node) :=
  foldl (λ sets '(node, comm_id),
           let sets' := match sets !! comm_id with
                        | None => <[comm_id := ∅]> sets
                        | Some _ => sets
                        end in
           alter (λ members, {[node]} ∪ members) comm_id sets')
        ∅ items.

(** [calculate_modularity] (the call to the logger is left out) *)
Definition calculate_modularity (graph : Graph) (communities : gmap Node nat)
    : Outcome Q :=
  let communities_list :=
    dict_values (community_sets (dict_items communities)) in
  nx_modularity graph communities_list.

End Modularity.

(** What is assumed of the two iteration orders: each lists the entries of
    the dictionary, once each. *)
Definition items_order {K V} `{Countable K}
    (dict_items : gmap K V → list (K * V)) : Prop :=
  ∀ m, dict_items m ≡ₚ map_to_list m.
Definition values_order {K V} `{Countable K}
    (dict_values : gmap K V → list V) : Prop :=
  ∀ m, dict_values m ≡ₚ (map_to_list m).*2.

(** Communities that share no node. *)
Definition disjoint_communities {Node} (cs : list (list Node)) : Prop :=
  ∀ i j ci cj node,
    cs !! i = Some ci → cs !! j = Some cj → node ∈ ci → node ∈ cj → i = j.

(** Stand-ins for the modularity of the library and for the two iteration
    orders, a sample assignment and sample communities. *)
Definition unit_modularity (_ : unit) (communities_list : list (gset string))
    : Outcome Q :=
  Returned (inject_Z (Z.of_nat (length communities_list))).
Definition gmap_values (m : gmap nat (gset string)) : list (gset string) :=
  (map_to_list m).*2.
Definition sample_assignment : gmap string nat :=
  <["a" := 0%nat]> (<["b" := 0%nat]> (<["c" := 1%nat]> ∅)).
Definition sample_communities : list (list string) := [["a"; "b"]; ["c"]].

(** A list is in descending order of its keys. *)
Definition descending {A} (key : A → Q) (l : list A) : Prop :=
  StronglySorted (λ x y, (key y <= key x)%Q) l.

(** Sample scores in dictionary order, and a stand-in library returning
    them. *)
Definition sample_scores : list (string * Q) :=
  [("a", 1 # 4); ("b", 3 # 4); ("c", 1 # 4); ("d", 1 # 2)]%Q.
Definition unit_items (_ : unit) : list (string * Q) := sample_scores.
Definition unit_links (_ : unit) : Outcome (list (string * string * Q)) :=
  Returned [("a", "b", 1 # 3); ("a", "c", 2 # 3)]%Q.

End NxAnalyzer.

(** * Properties of the stub analyzer *)

Module AnalyzerFacts.
Import Analyzer.

Ltac run := unfold exec, bind, get, modify, ret, raise in *; simpl in *.

(** ** What [add_node] and [add_edge] do to the state *)

Lemma add_node_run node self :
  add_node node self =
  (Returned tt,
   {| directed := directed self;
      nodes := {[node]} ∪ nodes self;
      edges := edges self;
      adjacency := match adjacency self !! node with
                   | None => <[node := []]> (adjacency self)
                   | Some _ => adjacency self
                   end |}).
Proof.
  unfold add_node. run. destruct (adjacency self !! node); reflexivity.
Qed.

Lemma add_node_key node self :
  is_Some (adjacency (exec (add_node node) self) !! node).
Proof.
  unfold exec. rewrite add_node_run. simpl.
  destruct (adjacency self !! node) eqn:E.
  - rewrite E. eauto.
  - rewrite lookup_insert_eq. eauto.
Qed.

Lemma add_node_keeps_key node key self :
  is_Some (adjacency self !! key) →
  is_Some (adjacency (exec (add_node node) self) !! key).
Proof.
  intros Hk. unfold exec. rewrite add_node_run. simpl.
  destruct (adjacency self !! node) eqn:E; [done|].
  rewrite lookup_insert. case_decide; eauto.
Qed.

Lemma adjacency_append_run key value self l :
  adjacency self !! key = Some l →
  adjacency_append key value self =
  (Returned tt, with_adjacency (<[key := l ++ [value]]>) self).
Proof. intros E. unfold adjacency_append. run. by rewrite E. Qed.

(** [add_edge] from any state: it returns, and the state it leaves is the
    one after the two [add_node] calls with the edge appended and the
    adjacency lists of the endpoints extended. *)
Lemma add_edge_run source target weight self :
  ∃ l1 l2,
    let self2 := exec (add_node target) (exec (add_node source) self) in
    let adj1 := <[source := l1 ++ [target]]> (adjacency self2) in
    adjacency self2 !! source = Some l1 ∧
    adj1 !! target = Some l2 ∧
    add_edge source target weight self =
    (Returned tt,
     {| directed := directed self;
        nodes := {[target]} ∪ ({[source]} ∪ nodes self);
        edges := edges self ++ [(source, target, weight)];
        adjacency := if directed self then adj1
                     else <[target := l2 ++ [source]]> adj1 |}).
Proof.
  destruct (add_node_keeps_key target source (exec (add_node source) self)
              (add_node_key source self)) as [l1 E1].
  set (self2 := exec (add_node target) (exec (add_node source) self)) in *.
  assert (is_Some (<[source := l1 ++ [target]]> (adjacency self2) !! target))
    as [l2 E2].
  { rewrite lookup_insert. case_decide; [eauto|]. apply add_node_key. }
  exists l1, l2. cbv zeta. fold self2. split; [done|]. split; [done|].
  unfold add_edge, bind at 1. rewrite add_node_run.
  unfold bind at 1. rewrite add_node_run.
  unfold self2, exec in E1, E2. rewrite !add_node_run in E1, E2. simpl in E1, E2.
  unfold self2, exec. rewrite !add_node_run. simpl.
  unfold bind at 1, modify at 1. unfold bind at 1.
  erewrite adjacency_append_run by (simpl; exact E1).
  unfold bind at 1, get at 1. simpl.
  destruct (directed self); simpl; [reflexivity|].
  erewrite adjacency_append_run by (simpl; exact E2). reflexivity.
Qed.

Lemma add_edge_returns source target weight self :
  (add_edge source target weight self).1 = Returned tt.
Proof.
  destruct (add_edge_run source target weight self) as (l1 & l2 & _ & _ & ->).
  reflexivity.
Qed.

Lemma add_edge_nodes source target weight self :
  nodes (exec (add_edge source target weight) self)
  = {[target]} ∪ ({[source]} ∪ nodes self).
Proof.
  destruct (add_edge_run source target weight self) as (l1 & l2 & _ & _ & E).
  unfold exec. by rewrite E.
Qed.

Lemma add_edge_edges source target weight self :
  edges (exec (add_edge source target weight) self)
  = edges self ++ [(source, target, weight)].
Proof.
  destruct (add_edge_run source target weight self) as (l1 & l2 & _ & _ & E).
  unfold exec. by rewrite E.
Qed.

Lemma add_edge_directed source target weight self :
  directed (exec (add_edge source target weight) self) = directed self.
Proof.
  destruct (add_edge_run source target weight self) as (l1 & l2 & _ & _ & E).
  unfold exec. by rewrite E.
Qed.

(** ** The store invariant is inductive *)

Lemma closed_in_mono N N' adj : N ⊆ N' → closed_in N adj → closed_in N' adj.
Proof.
  intros HN Hc key ns E. destruct (Hc key ns E) as [Hk Hns].
  split; [set_solver|]. intros x Hx. specialize (Hns x Hx). set_solver.
Qed.

Lemma closed_in_fresh N adj key :
  key ∈ N → closed_in N adj → closed_in N (<[key := []]> adj).
Proof.
  intros Hk Hc k ns. rewrite lookup_insert. case_decide as Hd.
  - intros [= <-]. subst. split; [done|]. intros x Hx. by apply elem_of_nil in Hx.
  - apply Hc.
Qed.

Lemma closed_in_append N adj key l value :
  closed_in N adj → adj !! key = Some l → value ∈ N →
  closed_in N (<[key := l ++ [value]]> adj).
Proof.
  intros Hc E Hv k ns. rewrite lookup_insert. case_decide as Hd.
  - intros [= <-]. subst. destruct (Hc _ _ E) as [Hk Hl]. split; [done|].
    intros x [Hx | Hx]%elem_of_app; [by apply Hl|].
    apply list_elem_of_singleton in Hx. by subst.
  - apply Hc.
Qed.

Lemma init_invariant d : store_invariant (init d).
Proof.
  split.
  - intros s t w Hin. simpl in Hin. by apply elem_of_nil in Hin.
  - intros k ns E. simpl in E. by rewrite lookup_empty in E.
Qed.

Lemma add_node_invariant node self :
  store_invariant self → store_invariant (exec (add_node node) self).
Proof.
  intros [He Ha]. unfold exec. rewrite add_node_run. split.
  - intros s t w Hin. simpl in *. destruct (He s t w Hin). set_solver.
  - unfold adjacency_closed. simpl.
    assert (closed_in ({[node]} ∪ nodes self) (adjacency self)) as Hc.
    { eapply closed_in_mono; [|exact Ha]. set_solver. }
    destruct (adjacency self !! node); [done|].
    apply closed_in_fresh; [set_solver|done].
Qed.

Lemma add_edge_invariant source target weight self :
  store_invariant self →
  store_invariant (exec (add_edge source target weight) self).
Proof.
  intros Hinv.
  pose proof (add_node_invariant target _ (add_node_invariant source _ Hinv))
    as [He2 Ha2].
  destruct (add_edge_run source target weight self) as (l1 & l2 & E1 & E2 & E).
  cbv zeta in E1, E2.
  set (self2 := exec (add_node target) (exec (add_node source) self)) in *.
  assert (nodes self2 = {[target]} ∪ ({[source]} ∪ nodes self)) as HN.
  { unfold self2, exec. by rewrite !add_node_run. }
  assert (edges self2 = edges self) as HE.
  { unfold self2, exec. by rewrite !add_node_run. }
  unfold exec at 1. rewrite E. split.
  - intros s t w Hin. simpl in *. rewrite <- HN.
    apply elem_of_app in Hin as [Hin | Hin].
    + apply (He2 s t w). by rewrite HE.
    + apply list_elem_of_singleton in Hin as [= -> -> ->].
      rewrite HN; clear; set_solver.
  - unfold adjacency_closed. simpl. rewrite <- HN.
    assert (closed_in (nodes self2)
              (<[source := l1 ++ [target]]> (adjacency self2))) as Hc1.
    { apply closed_in_append; [done|done|]. rewrite HN; clear; set_solver. }
    destruct (directed self); [done|].
    apply closed_in_append; [done|done|]. rewrite HN; clear; set_solver.
Qed.

Lemma reachable_invariant self : reachable self → store_invariant self.
Proof.
  induction 1 as [d | self node _ IH | self s t w _ IH].
  - apply init_invariant.
  - by apply add_node_invariant.
  - by apply add_edge_invariant.
Qed.

(** C7. Every graph built from a fresh analyzer by [add_node] and
    [add_edge] calls keeps the store invariant: both endpoints of every
    stored edge are nodes, every adjacency key is a node and so is every
    listed neighbour. Moreover [add_edge] always returns, its two
    [add_node] calls have made both endpoints nodes (with adjacency
    entries) in the state the edge is then appended to, and the edge ends up
    last in the edge list with both endpoints in the node set. *)
Theorem add_edge_keeps_store_invariant self :
  reachable self →
  store_invariant self ∧
  ∀ source target weight,
    let prepared := exec (add_node target) (exec (add_node source) self) in
    let self' := exec (add_edge source target weight) self in
    (add_edge source target weight self).1 = Returned tt ∧
    source ∈ nodes prepared ∧ target ∈ nodes prepared ∧
    is_Some (adjacency prepared !! source) ∧
    is_Some (adjacency prepared !! target) ∧
    edges prepared = edges self ∧
    nodes self' = nodes prepared ∧
    edges self' = edges prepared ++ [(source, target, weight)] ∧
    store_invariant self'.
Proof.
  intros Hr. split; [by apply reachable_invariant|].
  intros source target weight prepared self'.
  assert (nodes prepared = {[target]} ∪ ({[source]} ∪ nodes self)) as HN.
  { unfold prepared, exec. by rewrite !add_node_run. }
  assert (edges prepared = edges self) as HE.
  { unfold prepared, exec. by rewrite !add_node_run. }
  split; [apply add_edge_returns|].
  split; [rewrite HN; clear; set_solver|].
  split; [rewrite HN; clear; set_solver|].
  split; [apply add_node_keeps_key, add_node_key|].
  split; [apply add_node_key|].
  split; [done|].
  split; [unfold self'; by rewrite add_edge_nodes, HN|].
  split; [unfold self'; by rewrite add_edge_edges, HE|].
  apply add_edge_invariant, reachable_invariant, Hr.
Qed.

Lemma add_edge_keeps_store_invariant_witness :
  reachable sample_graph ∧
  store_invariant sample_graph ∧
  store_invariant (exec (add_edge "c" "d" 1%Q) sample_graph).
Proof.
  assert (reachable sample_graph) as Hr.
  { unfold sample_graph. do 2 apply reachable_add_edge.
    apply reachable_add_node, reachable_init. }
  destruct (add_edge_keeps_store_invariant sample_graph Hr) as [Hinv Hedge].
  split; [exact Hr|]. split; [exact Hinv|].
  apply (Hedge "c" "d" 1%Q).
Defined.

(** ** Dictionary comprehensions *)

Lemma dict_comprehension_from {V} (value : string → V) (keys : list string)
    (d : gmap string V) (key : string) :
  foldl (λ d key, <[key := value key]> d) d keys !! key
  = if decide (key ∈ keys) then Some (value key) else d !! key.
Proof.
  revert d. induction keys as [|k keys IH]; intros d.
  - rewrite decide_False; [done | apply not_elem_of_nil].
  - cbn [foldl]. rewrite IH. case_decide as Hin.
    + rewrite decide_True; [done | by right].
    + rewrite lookup_insert. case_decide as Hk.
      * subst. rewrite decide_True; [done | by left].
      * rewrite decide_False; [done|].
        intros [-> | Hx]%elem_of_cons; [done | by apply Hin].
Qed.

Lemma dict_comprehension_lookup {V} (value : string → V) (keys : list string)
    (key : string) :
  dict_comprehension value keys !! key
  = if decide (key ∈ keys) then Some (value key) else None.
Proof.
  unfold dict_comprehension. rewrite dict_comprehension_from.
  by rewrite lookup_empty.
Qed.

Lemma iteration_order_elem set_iter (s : gset string) x :
  iteration_order set_iter → x ∈ set_iter s ↔ x ∈ s.
Proof. intros Hi. rewrite (Hi s). apply elem_of_elements. Qed.

Lemma iteration_order_NoDup set_iter (s : gset string) :
  iteration_order set_iter → NoDup (set_iter s).
Proof. intros Hi. rewrite (Hi s). apply NoDup_elements. Qed.

Lemma iteration_order_length set_iter (s : gset string) :
  iteration_order set_iter → length (set_iter s) = size s.
Proof. intros Hi. by rewrite (Hi s). Qed.

(** ** Degree centrality *)

Lemma degree_centrality_run set_iter self :
  degree_centrality set_iter self =
  (Returned (dict_comprehension (degree_score self) (set_iter (nodes self))),
   self).
Proof.
  unfold degree_centrality, degree_score, dict_comprehension. run.
  destruct (Z.of_nat (size (nodes self)) <=? 1); reflexivity.
Qed.

Lemma degree_score_nonneg self node : (0 <= degree_score self node)%Q.
Proof.
  unfold degree_score.
  destruct (Z.leb_spec (Z.of_nat (size (nodes self))) 1) as [Hn | Hn].
  - apply Qle_refl.
  - apply Qle_shift_div_l.
    + change 0%Q with (inject_Z 0). rewrite <- Zlt_Qlt. lia.
    + rewrite Qmult_0_l. change 0%Q with (inject_Z 0). rewrite <- Zle_Qle. lia.
Qed.

Lemma neighbours_bound (N : gset string) key (l : list string) :
  NoDup l → key ∉ l → key ∈ N → (∀ x, x ∈ l → x ∈ N) →
  (length l < size N)%nat.
Proof.
  intros Hnd Hk HkN Hsub.
  rewrite <- (size_list_to_set (C := gset string) l Hnd).
  apply subset_size. split.
  - intros x Hx. apply elem_of_list_to_set in Hx. by apply Hsub.
  - intros Hsup. apply Hk. apply (elem_of_list_to_set (C := gset string)).
    by apply Hsup.
Qed.

Lemma degree_score_le_1 self node :
  store_invariant self → simple self → (degree_score self node <= 1)%Q.
Proof.
  intros [_ Ha] Hs. unfold degree_score.
  destruct (Z.leb_spec (Z.of_nat (size (nodes self))) 1) as [Hn | Hn];
    [done|].
  apply Qle_shift_div_r.
  - change 0%Q with (inject_Z 0). rewrite <- Zlt_Qlt. lia.
  - rewrite Qmult_1_l. rewrite <- Zle_Qle.
    destruct (adjacency self !! node) as [l|] eqn:E; simpl; [|lia].
    destruct (Ha _ _ E) as [Hk Hl]. destruct (Hs _ _ E) as [Hnd Hself].
    pose proof (neighbours_bound (nodes self) node l Hnd Hself Hk Hl). lia.
Qed.

(** C5, as amended. For every graph built by [add_node] and [add_edge]
    calls, [degree_centrality] returns a score for exactly the nodes; every
    score is at least 0; every score is at most 1 when the graph is simple
    (no parallel edges, no self-loops); and every score equals 0.0 when the
    graph has at most one node. The analyzer is left unchanged. *)
Theorem degree_centrality_range set_iter self :
  iteration_order set_iter → reachable self →
  ∃ scores,
    degree_centrality set_iter self = (Returned scores, self) ∧
    (∀ node, is_Some (scores !! node) ↔ node ∈ nodes self) ∧
    (∀ node v, scores !! node = Some v →
       (0 <= v)%Q ∧
       (simple self → (v <= 1)%Q) ∧
       ((size (nodes self) ≤ 1)%nat → v = 0%Q)).
Proof.
  intros Hi Hr. eexists. split; [apply degree_centrality_run|]. split.
  - intros node. rewrite dict_comprehension_lookup.
    rewrite <- (iteration_order_elem set_iter _ node Hi).
    case_decide as Hd; split; intros Hx; done.
  - intros node v. rewrite dict_comprehension_lookup.
    case_decide as Hd; [|done]. intros [= <-].
    split; [apply degree_score_nonneg|]. split.
    + intros Hs. apply degree_score_le_1; [by apply reachable_invariant|done].
    + intros Hn. unfold degree_score.
      destruct (Z.leb_spec (Z.of_nat (size (nodes self))) 1); [done|lia].
Qed.

Lemma iteration_order_elements : iteration_order elements.
Proof. intros s. reflexivity. Qed.

Lemma reachable_sample_graph : reachable sample_graph.
Proof.
  unfold sample_graph. do 2 apply reachable_add_edge.
  apply reachable_add_node, reachable_init.
Qed.

Lemma degree_centrality_range_witness :
  iteration_order elements ∧ reachable sample_graph ∧ simple sample_graph ∧
  ∃ scores,
    degree_centrality elements sample_graph = (Returned scores, sample_graph) ∧
    (∀ node, is_Some (scores !! node) ↔ node ∈ nodes sample_graph) ∧
    (∀ node v, scores !! node = Some v →
       (0 <= v)%Q ∧
       (simple sample_graph → (v <= 1)%Q) ∧
       ((size (nodes sample_graph) ≤ 1)%nat → v = 0%Q)).
Proof.
  split; [exact iteration_order_elements|].
  split; [exact reachable_sample_graph|].
  split; [unfold simple; apply (bool_decide_unpack _); by vm_compute|].
  exact (degree_centrality_range elements sample_graph
           iteration_order_elements reachable_sample_graph).
Defined.

(** C5 fails as stated: after [add_edge("a", "b")] twice the graph has two
    nodes and node ["a"] has two adjacency entries, so its score is 2. *)
Lemma degree_centrality_exceeds_one :
  reachable parallel_graph ∧
  ∃ scores,
    degree_centrality elements parallel_graph = (Returned scores, parallel_graph) ∧
    scores !! "a" = Some (2 # 1)%Q ∧ ¬ (2 # 1 <= 1)%Q.
Proof.
  split.
  { unfold parallel_graph. do 2 apply reachable_add_edge. apply reachable_init. }
  eexists. split; [apply degree_centrality_run|].
  split; [by vm_compute|]. by vm_compute.
Qed.

(** ** [process] *)

Lemma for_each_add_edge edge_list self :
  for_each edge_list (λ edge, add_edge edge.1 edge.2 1%Q) self
  = (Returned tt, add_edges edge_list self).
Proof.
  revert self. induction edge_list as [|edge rest IH]; intros self; [done|].
  cbn [for_each]. unfold bind.
  pose proof (add_edge_returns edge.1 edge.2 1%Q self) as Hret.
  destruct (add_edge edge.1 edge.2 1%Q self) as [o self1] eqn:E.
  simpl in Hret. subst o. rewrite IH. unfold add_edges. simpl.
  unfold exec. by rewrite E.
Qed.

Lemma process_run edge_list self :
  process edge_list self =
  (let self' := add_edges edge_list self in
   let n := Z.of_nat (size (nodes self')) in
   let m := Z.of_nat (length (edges self')) in
   (Returned {| num_nodes := n; num_edges := m;
                density := if 1 <? n
                           then (inject_Z m / inject_Z (n * (n - 1)))%Q
                           else 0%Q |},
    self')).
Proof.
  unfold process. unfold bind at 1. by rewrite for_each_add_edge.
Qed.

Lemma add_edges_app l1 l2 self :
  add_edges (l1 ++ l2) self = add_edges l2 (add_edges l1 self).
Proof. unfold add_edges. apply foldl_app. Qed.

Lemma add_edges_nodes edge_list self :
  nodes (add_edges edge_list self) = nodes self ∪ endpoints edge_list.
Proof.
  revert self. induction edge_list as [|edge rest IH]; intros self.
  - unfold endpoints. simpl. set_solver.
  - change (add_edges (edge :: rest) self)
      with (add_edges rest (exec (add_edge edge.1 edge.2 1%Q) self)).
    rewrite IH, add_edge_nodes. unfold endpoints. simpl. set_solver.
Qed.

Lemma add_edges_edges edge_list self :
  edges (add_edges edge_list self)
  = edges self ++ ((λ edge, (edge.1, edge.2, 1%Q)) <$> edge_list).
Proof.
  revert self. induction edge_list as [|edge rest IH]; intros self.
  - simpl. by rewrite app_nil_r.
  - change (add_edges (edge :: rest) self)
      with (add_edges rest (exec (add_edge edge.1 edge.2 1%Q) self)).
    rewrite IH, add_edge_edges. by rewrite <- app_assoc.
Qed.

Lemma add_edges_edge_count edge_list self :
  Z.of_nat (length (edges (add_edges edge_list self)))
  = Z.of_nat (length (edges self)) + Z.of_nat (length edge_list).
Proof. rewrite add_edges_edges, length_app, length_fmap. lia. Qed.

(** C8. [process] reports, for the graph with [n] nodes and [m] stored
    edges that the analyzer holds when the call returns, the counts [n] and
    [m] and the density [m / (n * (n - 1))] when [n > 1] and [0] when
    [n <= 1]; with no edges supplied that graph is the one process was
    called on. Nothing here depends on the [directed] flag, so it holds in
    particular for every undirected graph. *)
Theorem process_density edge_list self :
  ∃ report self',
    process edge_list self = (Returned report, self') ∧
    self' = add_edges edge_list self ∧
    (edge_list = [] → self' = self) ∧
    num_nodes report = Z.of_nat (size (nodes self')) ∧
    num_edges report = Z.of_nat (length (edges self')) ∧
    (1 < num_nodes report →
       density report
       = (inject_Z (num_edges report)
          / inject_Z (num_nodes report * (num_nodes report - 1)))%Q) ∧
    (num_nodes report ≤ 1 → density report = 0%Q).
Proof.
  eexists _, _. split; [apply process_run|]. cbv zeta. simpl.
  split; [done|]. split; [by intros ->|]. split; [done|]. split; [done|].
  split; intros Hn.
  - destruct (Z.ltb_spec 1 (Z.of_nat (size (nodes (add_edges edge_list self)))));
      [done|lia].
  - destruct (Z.ltb_spec 1 (Z.of_nat (size (nodes (add_edges edge_list self)))));
      [lia|done].
Qed.

(** On the path a - b - c with the isolated node z (4 nodes, 2 edges) the
    reported density is 2 / (4 * 3). *)
Lemma process_density_witness :
  ∃ report,
    process [] sample_graph = (Returned report, sample_graph) ∧
    num_nodes report = 4 ∧ num_edges report = 2 ∧
    density report = (inject_Z 2 / inject_Z (4 * 3))%Q.
Proof.
  destruct (process_density [] sample_graph)
    as (report & self' & Hrun & _ & Hsame & Hn & Hm & Hd & _).
  rewrite (Hsame eq_refl) in Hrun, Hn, Hm.
  assert (num_nodes report = 4) as Hn4 by (rewrite Hn; by vm_compute).
  assert (num_edges report = 2) as Hm2 by (rewrite Hm; by vm_compute).
  exists report. split; [exact Hrun|]. split; [exact Hn4|]. split; [exact Hm2|].
  rewrite Hd by (rewrite Hn4; lia). by rewrite Hn4, Hm2.
Defined.

(** C9. [process] changes the analyzer it is called on: the supplied edges
    are appended, with weight 1.0, to the edges already stored and their
    endpoints join the nodes already present; the reported counts and
    density are those of the accumulated graph; and a second call reports
    the totals over the initial state and both edge lists. *)
Theorem process_accumulates first second self :
  ∃ report1 report2,
    process first self = (Returned report1, add_edges first self) ∧
    process second (add_edges first self)
    = (Returned report2, add_edges (first ++ second) self) ∧
    nodes (add_edges first self) = nodes self ∪ endpoints first ∧
    edges (add_edges first self)
    = edges self ++ ((λ edge, (edge.1, edge.2, 1%Q)) <$> first) ∧
    directed (add_edges first self) = directed self ∧
    num_nodes report1 = count_nodes (add_edges first self) ∧
    num_edges report1 = count_edges self + Z.of_nat (length first) ∧
    density report1 = density_of (num_nodes report1) (num_edges report1) ∧
    nodes (add_edges (first ++ second) self)
    = nodes self ∪ endpoints first ∪ endpoints second ∧
    num_nodes report2 = count_nodes (add_edges (first ++ second) self) ∧
    num_edges report2
    = count_edges self + Z.of_nat (length first) + Z.of_nat (length second) ∧
    density report2 = density_of (num_nodes report2) (num_edges report2).
Proof.
  eexists _, _. split; [apply process_run|].
  split. { rewrite process_run. by rewrite add_edges_app. }
  cbv zeta. simpl. unfold count_nodes, count_edges, density_of.
  split; [apply add_edges_nodes|]. split; [apply add_edges_edges|].
  split.
  { clear. revert self.
    induction first as [|edge rest IH]; intros self; [done|].
    change (add_edges (edge :: rest) self)
      with (add_edges rest (exec (add_edge edge.1 edge.2 1%Q) self)).
    by rewrite IH, add_edge_directed. }
  split; [done|]. split; [apply add_edges_edge_count|]. split; [done|].
  split. { rewrite add_edges_app. by rewrite !add_edges_nodes. }
  split; [by rewrite add_edges_app|].
  split; [by rewrite !add_edges_edge_count|].
  done.
Qed.

(** The counts are not those of the supplied list alone: one new edge on
    the four-node sample reports five nodes and three edges, and the same
    call again reports five nodes and four edges. *)
Example process_twice :
  ∃ report1 report2 after1 after2,
    process [("c", "d")] sample_graph = (Returned report1, after1) ∧
    process [("c", "d")] after1 = (Returned report2, after2) ∧
    (num_nodes report1, num_edges report1) = (5, 3) ∧
    (num_nodes report2, num_edges report2) = (5, 4) ∧
    after1 ≠ sample_graph.
Proof.
  eexists _, _, _, _. split; [apply process_run|]. split; [apply process_run|].
  split; [by vm_compute|]. split; [by vm_compute|].
  intros Heq. apply (f_equal (λ g, length (edges g))) in Heq.
  by vm_compute in Heq.
Qed.

(** ** [detect_communities] *)

Lemma detect_communities_run set_iter method self :
  detect_communities set_iter method self =
  (let nodes_list := set_iter (nodes self) in
   let mid := (length nodes_list / 2)%nat in
   (Returned [list_to_set (take mid nodes_list);
              list_to_set (drop mid nodes_list)], self)).
Proof. reflexivity. Qed.

Lemma halves_partition (l : list string) (mid : nat) :
  NoDup l →
  (list_to_set (take mid l) : gset string) ## list_to_set (drop mid l) ∧
  (list_to_set (take mid l) : gset string) ∪ list_to_set (drop mid l)
  = list_to_set l.
Proof.
  intros Hnd. rewrite <- (take_drop mid l) in Hnd.
  apply NoDup_app in Hnd as (_ & Hdisj & _). split.
  - intros x Hx Hy. apply elem_of_list_to_set in Hx, Hy. by apply (Hdisj x).
  - rewrite <- list_to_set_app_L. by rewrite take_drop.
Qed.

(** C10. For every graph and every two method strings, the stub
    [detect_communities] returns, without raising and without changing the
    analyzer, the same list of two sets; the two sets are disjoint and
    their union is the whole node set. *)
Theorem detect_communities_ignores_method set_iter self m1 m2 :
  iteration_order set_iter →
  ∃ first second,
    detect_communities set_iter m1 self = (Returned [first; second], self) ∧
    detect_communities set_iter m2 self = (Returned [first; second], self) ∧
    first ## second ∧
    first ∪ second = nodes self.
Proof.
  intros Hi. eexists _, _. split; [apply detect_communities_run|].
  split; [apply detect_communities_run|].
  destruct (halves_partition (set_iter (nodes self))
              (length (set_iter (nodes self)) / 2)%nat
              (iteration_order_NoDup set_iter _ Hi)) as [Hd Hu].
  split; [exact Hd|]. rewrite Hu.
  apply set_eq. intros x. rewrite elem_of_list_to_set.
  by apply iteration_order_elem.
Qed.

Lemma detect_communities_ignores_method_witness :
  iteration_order elements ∧
  ∃ first second,
    detect_communities elements "louvain" sample_graph
    = (Returned [first; second], sample_graph) ∧
    detect_communities elements "no_such_method" sample_graph
    = (Returned [first; second], sample_graph) ∧
    first ## second ∧
    first ∪ second = nodes sample_graph.
Proof.
  split; [exact iteration_order_elements|].
  exact (detect_communities_ignores_method elements sample_graph
           "louvain" "no_such_method" iteration_order_elements).
Defined.

(** C4. On two disjoint triangles a - b - c and d - e - f, iterated in the
    order c, e, a, f, b, d, the stub returns the two halves of that listing,
    {c, e, a} and {f, b, d}: two communities, but neither of them is the node
    set of a triangle. *)
Theorem detect_communities_splits_triangles :
  iteration_order elements ∧
  elements (nodes two_triangles) = ["c"; "e"; "a"; "f"; "b"; "d"] ∧
  ∃ first second,
    detect_communities elements "louvain" two_triangles
    = (Returned [first; second], two_triangles) ∧
    first = {["c"; "e"; "a"]} ∧ second = {["f"; "b"; "d"]} ∧
    first ≠ {["a"; "b"; "c"]} ∧ first ≠ {["d"; "e"; "f"]} ∧
    second ≠ {["a"; "b"; "c"]} ∧ second ≠ {["d"; "e"; "f"]}.
Proof.
  split; [exact iteration_order_elements|].
  split; [by vm_compute|].
  eexists _, _. split; [apply detect_communities_run|].
  split; [by vm_compute|]. split; [by vm_compute|].
  repeat split; apply (bool_decide_unpack _); by vm_compute.
Qed.

(** Whatever the iteration order, some pair of disjoint triangles is not
    recovered: list the six names a .. f in iteration order as x0 .. x5 and
    build the triangles x0 - x1 - x3 and x2 - x4 - x5; the first community
    returned is {x0, x1, x2}, which is neither triangle. *)
Lemma detect_communities_misses_triangles set_iter :
  iteration_order set_iter →
  ∃ x0 x1 x2 x3 x4 x5 : string,
    NoDup [x0; x1; x2; x3; x4; x5] ∧
    ∃ first second,
      detect_communities set_iter "louvain"
        (add_edges [(x0, x1); (x1, x3); (x3, x0);
                    (x2, x4); (x4, x5); (x5, x2)] (init false))
      = (Returned [first; second],
         add_edges [(x0, x1); (x1, x3); (x3, x0);
                    (x2, x4); (x4, x5); (x5, x2)] (init false)) ∧
      first ≠ {[x0; x1; x3]} ∧ first ≠ {[x2; x4; x5]}.
Proof.
  intros Hi.
  set (N := ({["a"; "b"; "c"; "d"; "e"; "f"]} : gset string)).
  pose proof (iteration_order_NoDup set_iter N Hi) as Hnd.
  pose proof (iteration_order_length set_iter N Hi) as Hlen.
  assert (list_to_set (set_iter N) = N) as Hset.
  { apply set_eq. intros x. rewrite elem_of_list_to_set.
    by apply iteration_order_elem. }
  change (size N) with 6%nat in Hlen.
  destruct (set_iter N) as [|x0 [|x1 [|x2 [|x3 [|x4 [|x5 [|x6 rest]]]]]]] eqn:El;
    try discriminate Hlen.
  exists x0, x1, x2, x3, x4, x5. split; [exact Hnd|].
  set (g := add_edges _ (init false)).
  assert (nodes g = N) as Hg.
  { unfold g. rewrite add_edges_nodes. unfold endpoints. simpl.
    rewrite <- Hset. simpl. clear. set_solver. }
  eexists _, _. split; [apply detect_communities_run|].
  cbv zeta. rewrite Hg, El. simpl.
  apply NoDup_cons in Hnd as [H0 Hnd]. apply NoDup_cons in Hnd as [H1 Hnd].
  apply NoDup_cons in Hnd as [H2 _].
  split; intros Heq.
  - assert (x2 ∈ ({[x0; x1; x3]} : gset string)) as Hin
      by (rewrite <- Heq; clear; set_solver).
    clear -Hin H0 H1 H2. set_solver.
  - assert (x0 ∈ ({[x2; x4; x5]} : gset string)) as Hin
      by (rewrite <- Heq; clear; set_solver).
    clear -Hin H0. set_solver.
Qed.

(** ** [shortest_path] *)

Lemma shortest_path_run source target self :
  shortest_path source target self =
  (Returned (if bool_decide (source ∉ nodes self)
                || bool_decide (target ∉ nodes self)
             then None else Some [source; target]), self).
Proof.
  unfold shortest_path. run.
  by destruct (bool_decide (source ∉ nodes self)
               || bool_decide (target ∉ nodes self)).
Qed.

(** C3, as amended. If the source or the target is absent from the node
    set, [shortest_path] returns [None] to the caller: no exception is
    raised, and the analyzer is unchanged. *)
Theorem shortest_path_absent_returns_None source target self :
  source ∉ nodes self ∨ target ∉ nodes self →
  shortest_path source target self = (Returned None, self) ∧
  ¬ raises (shortest_path source target self).1.
Proof.
  intros Habs. rewrite shortest_path_run.
  assert (bool_decide (source ∉ nodes self)
          || bool_decide (target ∉ nodes self) = true) as ->.
  { apply orb_true_iff. destruct Habs as [Hs | Ht]; [left | right];
      by apply bool_decide_eq_true. }
  split; [done|]. by intros [e He].
Qed.

Lemma shortest_path_absent_returns_None_witness :
  ("x" ∉ nodes sample_graph) ∧
  shortest_path "a" "x" sample_graph = (Returned None, sample_graph) ∧
  ¬ raises (shortest_path "a" "x" sample_graph).1.
Proof.
  assert ("x" ∉ nodes sample_graph) as Hx
    by (apply (bool_decide_unpack _); by vm_compute).
  split; [exact Hx|].
  exact (shortest_path_absent_returns_None "a" "x" sample_graph (or_intror Hx)).
Defined.

(** C3 fails as stated: with target ["x"] absent the call returns [None]
    and raises nothing. *)
Lemma shortest_path_absent_no_error :
  ("x" ∉ nodes sample_graph) ∧
  (shortest_path "a" "x" sample_graph).1 = Returned None ∧
  ∀ e, (shortest_path "a" "x" sample_graph).1 ≠ Raised e.
Proof.
  split; [apply (bool_decide_unpack _); by vm_compute|].
  split; [by vm_compute|]. intros e. by vm_compute.
Qed.

Lemma closed_under_linked self (P : string → Prop) a b :
  (∀ x y, P x → linked self x y → P y) →
  P a → same_component self a b → P b.
Proof.
  intros Hstep Ha Hc. induction Hc as [x | x y z Hxy _ IH]; [done|].
  apply IH. by apply (Hstep x y).
Qed.

(** C2. In the sample graph (path a - b - c, isolated node z) the nodes a
    and z are present and lie in different components, yet
    [shortest_path("a", "z")] returns the list [a, z] instead of [None];
    and [shortest_path("a", "c")] returns [a, c] although c is not a
    neighbour of a. *)
Theorem shortest_path_ignores_edges :
  "a" ∈ nodes sample_graph ∧ "z" ∈ nodes sample_graph ∧
  ¬ same_component sample_graph "a" "z" ∧
  shortest_path "a" "z" sample_graph
  = (Returned (Some ["a"; "z"]), sample_graph) ∧
  shortest_path "a" "c" sample_graph
  = (Returned (Some ["a"; "c"]), sample_graph) ∧
  adjacency sample_graph !! "a" = Some ["b"].
Proof.
  split; [apply (bool_decide_unpack _); by vm_compute|].
  split; [apply (bool_decide_unpack _); by vm_compute|].
  split.
  - intros Hc.
    apply (closed_under_linked sample_graph (λ x, x ≠ "z") "a" "z") in Hc;
      [done| |done].
    intros x y Hx [(l & El & Hin) | (l & El & Hin)] ->.
    + assert (map_Forall (λ _ l, "z" ∉ l) (adjacency sample_graph)) as Hall
        by (apply (bool_decide_unpack _); by vm_compute).
      by apply (Hall x l El).
    + assert (adjacency sample_graph !! "z" = Some []) as Ez by (by vm_compute).
      rewrite Ez in El. injection El as <-. by apply elem_of_nil in Hin.
  - split; [by vm_compute|]. split; by vm_compute.
Qed.

(** ** [betweenness_centrality] *)

(** C1. Two successive calls on the same one-node graph return different
    scores for its node: 1/2 the first time, 1/3 the second, the next two
    values of the generator. *)
Theorem betweenness_centrality_not_reproducible :
  ∃ scores1 rng1 scores2 rng2,
    betweenness_centrality elements sample_rng single_node
    = (Returned (scores1, rng1), single_node) ∧
    betweenness_centrality elements rng1 single_node
    = (Returned (scores2, rng2), single_node) ∧
    ∃ v1 v2, scores1 !! "a" = Some v1 ∧ scores2 !! "a" = Some v2 ∧
             (v1 == 1 # 2)%Q ∧ (v2 == 1 # 3)%Q ∧ ¬ (v1 == v2)%Q.
Proof.
  eexists _, _, _, _. split; [reflexivity|]. split; [reflexivity|].
  eexists _, _. split; [by vm_compute|]. split; [by vm_compute|].
  split; [by vm_compute|]. split; by vm_compute.
Qed.

(** * Further properties of the stub analyzer *)

(** ** [add_node] again *)

(** X1. [add_node] is idempotent from every state: calling it a second
    time with the same node leaves the analyzer as the first call left it. *)
Theorem add_node_idempotent node self :
  exec (add_node node) (exec (add_node node) self) = exec (add_node node) self.
Proof.
  unfold exec. rewrite !add_node_run. simpl.
  destruct (adjacency self !! node) as [l|] eqn:E.
  - rewrite E. f_equal. set_solver.
  - rewrite lookup_insert_eq. f_equal. set_solver.
Qed.

Lemma init_keys d : dom (adjacency (init d)) = nodes (init d).
Proof. simpl. apply dom_empty_L. Qed.

Lemma add_node_keys node self :
  dom (adjacency self) = nodes self →
  dom (adjacency (exec (add_node node) self))
  = nodes (exec (add_node node) self).
Proof.
  intros Hk. unfold exec. rewrite add_node_run. simpl.
  destruct (adjacency self !! node) as [l|] eqn:E.
  - rewrite Hk. assert (node ∈ dom (adjacency self)) as Hin
      by (apply elem_of_dom; eauto).
    rewrite Hk in Hin. clear -Hin. set_solver.
  - rewrite dom_insert_L. by rewrite Hk.
Qed.

Lemma add_edge_keys source target weight self :
  dom (adjacency self) = nodes self →
  dom (adjacency (exec (add_edge source target weight) self))
  = nodes (exec (add_edge source target weight) self).
Proof.
  intros Hk.
  pose proof (add_node_keys target _ (add_node_keys source _ Hk)) as Hk2.
  destruct (add_edge_run source target weight self) as (l1 & l2 & E1 & E2 & E).
  cbv zeta in E1, E2.
  set (self2 := exec (add_node target) (exec (add_node source) self)) in *.
  assert (nodes self2 = {[target]} ∪ ({[source]} ∪ nodes self)) as HN.
  { unfold self2, exec. by rewrite !add_node_run. }
  unfold exec at 1 2. rewrite E. simpl. rewrite <- HN, <- Hk2.
  assert (source ∈ dom (adjacency self2)) as Hs by (apply elem_of_dom; eauto).
  assert (target ∈ dom (adjacency self2)) as Ht.
  { rewrite Hk2, HN. clear. set_solver. }
  destruct (directed self); rewrite ?dom_insert_L; clear -Hs Ht; set_solver.
Qed.

(** X2. In every graph built by [add_node] and [add_edge] calls the keys
    of the adjacency mapping are exactly the nodes: every node has a
    neighbour list (possibly empty) and nothing else has one. *)
Theorem adjacency_keys_are_nodes self :
  reachable self → dom (adjacency self) = nodes self.
Proof.
  induction 1 as [d | self node _ IH | self s t w _ IH].
  - apply init_keys.
  - by apply add_node_keys.
  - by apply add_edge_keys.
Qed.

Lemma adjacency_keys_are_nodes_witness :
  reachable sample_graph ∧ dom (adjacency sample_graph) = nodes sample_graph.
Proof.
  split; [exact reachable_sample_graph|].
  exact (adjacency_keys_are_nodes sample_graph reachable_sample_graph).
Defined.

(** X3. Adding a node that the graph already has changes nothing: the
    node set, the edges and in particular the node's neighbour list are
    kept. *)
Theorem add_node_present_unchanged node self :
  reachable self → node ∈ nodes self →
  add_node node self = (Returned tt, self).
Proof.
  intros Hr Hin. rewrite add_node_run.
  pose proof (adjacency_keys_are_nodes self Hr) as Hk.
  assert (is_Some (adjacency self !! node)) as [l E]
    by (apply elem_of_dom; by rewrite Hk).
  rewrite E. destruct self as [d N es adj]. simpl in *. do 2 f_equal.
  clear -Hin. set_solver.
Qed.

Lemma add_node_present_unchanged_witness :
  reachable sample_graph ∧ ("b" ∈ nodes sample_graph) ∧
  add_node "b" sample_graph = (Returned tt, sample_graph).
Proof.
  assert ("b" ∈ nodes sample_graph) as Hb
    by (apply (bool_decide_unpack _); by vm_compute).
  split; [exact reachable_sample_graph|]. split; [exact Hb|].
  exact (add_node_present_unchanged "b" sample_graph reachable_sample_graph Hb).
Defined.

(** ** The adjacency lists are determined by the stored edges *)

Lemma add_node_directed node self :
  directed (exec (add_node node) self) = directed self.
Proof. unfold exec. by rewrite add_node_run. Qed.

Lemma add_node_edges node self :
  edges (exec (add_node node) self) = edges self.
Proof. unfold exec. by rewrite add_node_run. Qed.

Lemma neighbours_add_node node self a :
  neighbours (exec (add_node node) self) a = neighbours self a.
Proof.
  unfold neighbours, exec. rewrite add_node_run. simpl.
  destruct (adjacency self !! node) as [l|] eqn:E; [done|].
  rewrite lookup_insert. case_decide as Hd; [|done]. subst. by rewrite E.
Qed.

Lemma neighbours_add_edge source target weight self a :
  neighbours (exec (add_edge source target weight) self) a
  = neighbours self a
    ++ edge_entries (directed self) a (source, target, weight).
Proof.
  destruct (add_edge_run source target weight self) as (l1 & l2 & E1 & E2 & E).
  cbv zeta in E1, E2.
  set (self2 := exec (add_node target) (exec (add_node source) self)) in *.
  assert (∀ x, neighbours self2 x = neighbours self x) as Hsame.
  { intros x. unfold self2. by rewrite !neighbours_add_node. }
  assert (l1 = neighbours self source) as Hl1.
  { rewrite <- Hsame. unfold neighbours. by rewrite E1. }
  assert (l2 = if decide (source = target) then l1 ++ [target]
               else neighbours self target) as Hl2.
  { rewrite lookup_insert in E2. case_decide as Hd.
    - by injection E2 as <-.
    - rewrite <- Hsame. unfold neighbours. by rewrite E2. }
  unfold neighbours at 1, exec. rewrite E. unfold edge_entries. simpl.
  destruct (directed self); simpl.
  - rewrite app_nil_r, lookup_insert.
    destruct (decide (source = a)) as [->|Hs]; simpl.
    + by rewrite Hl1.
    + rewrite app_nil_r. apply Hsame.
  - rewrite !lookup_insert.
    destruct (decide (target = a)) as [->|Ht]; simpl.
    + rewrite bool_decide_eq_true_2 by done. rewrite Hl2.
      destruct (decide (source = a)) as [->|Hs]; simpl.
      * rewrite Hl1. by rewrite <- app_assoc.
      * done.
    + rewrite bool_decide_eq_false_2 by done.
      destruct (decide (source = a)) as [->|Hs]; simpl.
      * by rewrite Hl1.
      * rewrite app_nil_r. apply Hsame.
Qed.

(** X4. In every graph built by [add_node] and [add_edge] calls the
    neighbour list of a node is determined by the edge list and the
    [directed] flag: it lists, in the order the edges were added, the target
    of every edge leaving the node and, when the graph is undirected, the
    source of every edge arriving at it (a self-loop contributes the node
    twice). *)
Theorem neighbours_from_edges self :
  reachable self →
  ∀ node,
    neighbours self node
    = flat_map (edge_entries (directed self) node) (edges self).
Proof.
  induction 1 as [d | self n _ IH | self s t w _ IH]; intros node.
  - reflexivity.
  - by rewrite neighbours_add_node, add_node_directed, add_node_edges.
  - rewrite neighbours_add_edge, add_edge_directed, add_edge_edges.
    rewrite flat_map_app. simpl. by rewrite app_nil_r, IH.
Qed.

Lemma neighbours_from_edges_witness :
  reachable sample_graph ∧
  neighbours sample_graph "b" = ["a"; "c"] ∧
  flat_map (edge_entries false "b") [("a", "b", 1%Q); ("b", "c", 1%Q)]
  = ["a"; "c"].
Proof.
  pose proof (neighbours_from_edges sample_graph reachable_sample_graph "b")
    as Hb.
  split; [exact reachable_sample_graph|].
  split; [rewrite Hb|]; by vm_compute.
Defined.

Lemma elem_of_edge_entries is_directed a b (edge : string * string * Q) :
  b ∈ edge_entries is_directed a edge ↔
  (edge.1.1 = a ∧ edge.1.2 = b)
  ∨ (is_directed = false ∧ edge.1.2 = a ∧ edge.1.1 = b).
Proof.
  unfold edge_entries. rewrite elem_of_app. split.
  - intros [Hin | Hin].
    + case_decide; [|by apply elem_of_nil in Hin].
      apply list_elem_of_singleton in Hin. left. by subst.
    + destruct is_directed; simpl in Hin; [by apply elem_of_nil in Hin|].
      case_bool_decide; [|by apply elem_of_nil in Hin].
      apply list_elem_of_singleton in Hin. right. by subst.
  - intros [[Hs Ht] | (Hd & Ht & Hs)].
    + left. rewrite decide_True by done. apply list_elem_of_singleton. by subst.
    + right. subst is_directed. simpl. rewrite bool_decide_eq_true_2 by done.
      apply list_elem_of_singleton. by subst.
Qed.

(** X5. In every graph built by [add_node] and [add_edge] calls, [b] is
    listed as a neighbour of [a] exactly when some stored edge goes from [a]
    to [b] or, in an undirected graph, from [b] to [a]. Hence in an
    undirected graph being a neighbour is symmetric. *)
Theorem neighbour_iff_edge self :
  reachable self →
  ∀ a b,
    (b ∈ neighbours self a ↔
     ∃ weight, (a, b, weight) ∈ edges self
               ∨ (directed self = false ∧ (b, a, weight) ∈ edges self))
    ∧ (directed self = false →
       (b ∈ neighbours self a ↔ a ∈ neighbours self b)).
Proof.
  intros Hr a b.
  assert (∀ x y, y ∈ neighbours self x ↔
          ∃ weight, (x, y, weight) ∈ edges self
                    ∨ (directed self = false ∧ (y, x, weight) ∈ edges self))
    as Hchar.
  { intros x y. rewrite (neighbours_from_edges self Hr).
    rewrite list_elem_of_In, in_flat_map. split.
    - intros ([[s t] w] & Hin & Hy). apply list_elem_of_In in Hin, Hy.
      apply elem_of_edge_entries in Hy. simpl in Hy. exists w.
      destruct Hy as [[-> ->] | (Hd & -> & ->)]; [by left | by right].
    - intros (w & [Hin | [Hd Hin]]).
      + exists (x, y, w). split; [by apply list_elem_of_In|].
        apply list_elem_of_In, elem_of_edge_entries. by left.
      + exists (y, x, w). split; [by apply list_elem_of_In|].
        apply list_elem_of_In, elem_of_edge_entries. by right. }
  split; [apply Hchar|]. intros Hd. rewrite !Hchar. split.
  - intros (w & [Hin | [_ Hin]]); exists w; [right | left]; done.
  - intros (w & [Hin | [_ Hin]]); exists w; [right | left]; done.
Qed.

Lemma neighbour_iff_edge_witness :
  reachable sample_graph ∧ directed sample_graph = false ∧
  ("c" ∈ neighbours sample_graph "b" ↔ "b" ∈ neighbours sample_graph "c").
Proof.
  split; [exact reachable_sample_graph|]. split; [reflexivity|].
  exact (proj2 (neighbour_iff_edge sample_graph reachable_sample_graph "b" "c")
           eq_refl).
Defined.

(** ** Degrees count edge ends *)

Lemma length_edge_entries is_directed a es :
  length (flat_map (edge_entries is_directed a) es)
  = (out_count a es + if is_directed then 0 else in_count a es)%nat.
Proof.
  unfold out_count, in_count.
  induction es as [|[[s t] w] es IH]; [by destruct is_directed|].
  cbn [flat_map]. rewrite length_app, IH, !filter_cons.
  unfold edge_entries. simpl.
  destruct (decide (s = a)) as [->|Hs], (decide (t = a)) as [->|Ht],
    is_directed; simpl;
    rewrite ?bool_decide_eq_true_2, ?bool_decide_eq_false_2 by done;
    simpl; lia.
Qed.

(** X6. In a graph with more than one node built by [add_node] and
    [add_edge] calls, the degree centrality of a node is the number of
    stored edges leaving it, plus (in an undirected graph only) the number of
    stored edges arriving at it, divided by [n - 1]: parallel edges count
    each time, an undirected self-loop counts twice, and in a directed graph
    incoming edges do not count. *)
Theorem degree_centrality_counts_edge_ends set_iter self node :
  iteration_order set_iter → reachable self →
  node ∈ nodes self → (1 < size (nodes self))%nat →
  ∃ scores,
    degree_centrality set_iter self = (Returned scores, self) ∧
    scores !! node
    = Some (inject_Z (Z.of_nat (out_count node (edges self)
                                + if directed self then 0
                                  else in_count node (edges self)))
            / inject_Z (Z.of_nat (size (nodes self)) - 1))%Q.
Proof.
  intros Hi Hr Hin Hn. eexists. split; [apply degree_centrality_run|].
  rewrite dict_comprehension_lookup.
  rewrite decide_True by (by apply iteration_order_elem).
  unfold degree_score.
  destruct (Z.leb_spec (Z.of_nat (size (nodes self))) 1) as [Hle|_]; [lia|].
  change (default [] (adjacency self !! node)) with (neighbours self node).
  by rewrite (neighbours_from_edges self Hr), length_edge_entries.
Qed.

Lemma reachable_directed_sample : reachable directed_sample.
Proof. unfold directed_sample. do 2 apply reachable_add_edge. apply reachable_init. Qed.

(** In the directed sample a -> b, c -> a the node a has one outgoing edge
    among three nodes: its score is 1/2, the incoming edge is not counted. *)
Lemma degree_centrality_counts_edge_ends_witness :
  iteration_order elements ∧ reachable directed_sample ∧
  ("a" ∈ nodes directed_sample) ∧ (1 < size (nodes directed_sample))%nat ∧
  ∃ scores,
    degree_centrality elements directed_sample
    = (Returned scores, directed_sample) ∧
    scores !! "a" = Some (inject_Z 1 / inject_Z 2)%Q.
Proof.
  assert ("a" ∈ nodes directed_sample) as Ha
    by (apply (bool_decide_unpack _); by vm_compute).
  assert (1 < size (nodes directed_sample))%nat as Hn by (vm_compute; lia).
  split; [exact iteration_order_elements|].
  split; [exact reachable_directed_sample|]. split; [exact Ha|].
  split; [exact Hn|].
  exact (degree_centrality_counts_edge_ends elements directed_sample "a"
           iteration_order_elements reachable_directed_sample Ha Hn).
Defined.

(** ** [betweenness_centrality]: what the draws look like *)

Lemma uniform_run a b rng :
  uniform a b rng
  = ((a + (b - a) * tape rng (cursor rng))%Q,
     {| tape := tape rng; cursor := S (cursor rng) |}).
Proof. reflexivity. Qed.

Lemma betweenness_fold (l : list string) (d0 : gmap string Q) rng0 :
  NoDup l →
  let r := foldl (λ '(d, rng) node,
                    let (v, rng') := uniform 0 1 rng in (<[node := v]> d, rng'))
                 (d0, rng0) l in
  tape r.2 = tape rng0 ∧
  cursor r.2 = (cursor rng0 + length l)%nat ∧
  (∀ i key, l !! i = Some key →
     r.1 !! key = Some (0 + (1 - 0) * tape rng0 (cursor rng0 + i)%nat)%Q) ∧
  (∀ key, key ∉ l → r.1 !! key = d0 !! key).
Proof.
  revert d0 rng0. induction l as [|x l IH]; intros d0 rng0 Hnd; cbv zeta.
  - simpl. split; [done|]. split; [lia|]. split; [intros i key Hl|done].
    by rewrite lookup_nil in Hl.
  - apply NoDup_cons in Hnd as [Hx Hnd]. cbn [foldl].
    rewrite !(uniform_run 0 1 rng0).
    specialize (IH (<[x := (0 + (1 - 0) * tape rng0 (cursor rng0))%Q]> d0)
                  {| tape := tape rng0; cursor := S (cursor rng0) |} Hnd).
    cbv zeta in IH. destruct IH as (Ht & Hc & Hpos & Hout).
    cbn [tape cursor] in Ht, Hc, Hpos, Hout.
    split; [exact Ht|]. split; [rewrite Hc; simpl; lia|]. split.
    + intros [|i] key Hl; simpl in Hl.
      * injection Hl as ->. rewrite (Hout key Hx), lookup_insert_eq.
        by rewrite Nat.add_0_r.
      * rewrite (Hpos i key Hl). by rewrite Nat.add_succ_r.
    + intros key Hk. apply not_elem_of_cons in Hk as [Hne Hk].
      rewrite (Hout key Hk). by rewrite lookup_insert_ne.
Qed.

(** X7. [betweenness_centrality] returns a score for exactly the nodes,
    never raises and leaves the analyzer unchanged; it consumes exactly one
    value of the generator per node, the node at position [i] of the
    iteration receiving the [i]-th next value; and when the generator yields
    values in [0, 1) every score lies in [0, 1). *)
Theorem betweenness_centrality_draws set_iter rng self :
  iteration_order set_iter →
  ∃ scores rng',
    betweenness_centrality set_iter rng self = (Returned (scores, rng'), self) ∧
    dom scores = nodes self ∧
    tape rng' = tape rng ∧
    cursor rng' = (cursor rng + size (nodes self))%nat ∧
    (∀ i node, set_iter (nodes self) !! i = Some node →
       ∃ v, scores !! node = Some v ∧ (v == tape rng (cursor rng + i)%nat)%Q) ∧
    (unit_interval rng →
     ∀ node v, scores !! node = Some v → (0 <= v)%Q ∧ (v < 1)%Q).
Proof.
  intros Hi.
  pose proof (betweenness_fold (set_iter (nodes self)) ∅ rng
                (iteration_order_NoDup set_iter _ Hi)) as Hfold.
  cbv zeta in Hfold.
  unfold betweenness_centrality. run.
  destruct (foldl _ (∅, rng) (set_iter (nodes self))) as [scores rng'] eqn:E.
  simpl in Hfold. destruct Hfold as (Ht & Hc & Hpos & Hout).
  exists scores, rng'. split; [done|].
  assert (∀ node v, scores !! node = Some v →
          ∃ i, set_iter (nodes self) !! i = Some node ∧
               (v == tape rng (cursor rng + i)%nat)%Q) as Hval.
  { intros node v Hv.
    destruct (decide (node ∈ set_iter (nodes self))) as [Hin|Hnin].
    - apply list_elem_of_lookup in Hin as [i Hl]. exists i. split; [done|].
      rewrite (Hpos i node Hl) in Hv. injection Hv as <-. ring.
    - rewrite (Hout node Hnin), lookup_empty in Hv. done. }
  split.
  { apply set_eq. intros node. rewrite elem_of_dom.
    rewrite <- (iteration_order_elem set_iter _ node Hi). split.
    - intros [v Hv]. destruct (Hval node v Hv) as (i & Hl & _).
      apply list_elem_of_lookup. eauto.
    - intros [i Hl]%list_elem_of_lookup. rewrite (Hpos i node Hl). eauto. }
  split; [exact Ht|].
  split; [by rewrite Hc, (iteration_order_length set_iter _ Hi)|].
  split.
  - intros i node Hl. eexists. split; [apply (Hpos i node Hl)|]. ring.
  - intros Hunit node v Hv. destruct (Hval node v Hv) as (i & _ & ->).
    apply Hunit.
Qed.

Lemma unit_interval_sample_rng : unit_interval sample_rng.
Proof.
  intros i. unfold sample_rng. simpl. split.
  - unfold Qle. simpl. lia.
  - unfold Qlt. simpl. lia.
Qed.

Lemma betweenness_centrality_draws_witness :
  iteration_order elements ∧ unit_interval sample_rng ∧
  ∃ scores rng',
    betweenness_centrality elements sample_rng sample_graph
    = (Returned (scores, rng'), sample_graph) ∧
    dom scores = nodes sample_graph ∧
    cursor rng' = 4%nat ∧
    (∀ node v, scores !! node = Some v → (0 <= v)%Q ∧ (v < 1)%Q).
Proof.
  split; [exact iteration_order_elements|].
  split; [exact unit_interval_sample_rng|].
  destruct (betweenness_centrality_draws elements sample_rng sample_graph
              iteration_order_elements)
    as (scores & rng' & Hrun & Hdom & _ & Hc & _ & Hrange).
  exists scores, rng'. split; [exact Hrun|]. split; [exact Hdom|].
  split; [exact Hc|]. exact (Hrange unit_interval_sample_rng).
Defined.

(** ** [evaluate] *)

Lemma betweenness_centrality_run set_iter rng self :
  ∃ drawn, betweenness_centrality set_iter rng self = (Returned drawn, self).
Proof. eexists. reflexivity. Qed.

(** X8. [evaluate] never raises and leaves the analyzer unchanged. Its
    result has an entry for a name exactly when the name was requested and
    is one of ["degree_centrality"] and ["betweenness_centrality"]: any
    other requested name is ignored without an error. The entries are the
    results of the two methods, and the generator is advanced only when
    ["betweenness_centrality"] was requested. *)
Theorem evaluate_reports_requested set_iter metrics rng self :
  ∃ results rng',
    evaluate set_iter metrics rng self = (Returned (results, rng'), self) ∧
    (∀ name, is_Some (results !! name) ↔
             name ∈ metrics ∧
             (name = "degree_centrality" ∨ name = "betweenness_centrality")) ∧
    ("degree_centrality" ∈ metrics →
     ∃ scores, degree_centrality set_iter self = (Returned scores, self) ∧
               results !! "degree_centrality" = Some scores) ∧
    ("betweenness_centrality" ∈ metrics →
     ∃ scores,
       betweenness_centrality set_iter rng self = (Returned (scores, rng'), self) ∧
       results !! "betweenness_centrality" = Some scores) ∧
    ("betweenness_centrality" ∉ metrics → rng' = rng).
Proof.
  unfold evaluate. unfold bind at 1.
  destruct (betweenness_centrality_run set_iter rng self) as [[bs rng1] Hb].
  destruct (bool_decide_reflect ("degree_centrality" ∈ metrics)) as [Hd|Hd];
    [unfold bind at 1; rewrite degree_centrality_run; unfold ret at 1|
     unfold ret at 1];
    (destruct (bool_decide_reflect ("betweenness_centrality" ∈ metrics))
       as [Hw|Hw];
     [unfold bind at 1; rewrite Hb; unfold ret; simpl|unfold ret]);
    eexists _, _; (split; [reflexivity|]).
  - split; [|split; [|split]].
    + intros name. rewrite !lookup_insert, lookup_empty.
      repeat case_decide; subst; split;
        try (intros [? ?]; done); try (intros [_ [? | ?]]; done);
        intros _; (split; [done|]); eauto.
    + intros _. eexists. split; [reflexivity|].
      by rewrite lookup_insert_ne, lookup_insert_eq.
    + intros _. eexists. split; [reflexivity|]. by rewrite lookup_insert_eq.
    + done.
  - split; [|split; [|split]].
    + intros name. rewrite !lookup_insert, lookup_empty.
      repeat case_decide; subst; split;
        try (intros [? ?]; done); try (intros [? [? | ?]]; by subst);
        intros _; (split; [done|]); eauto.
    + intros _. eexists. split; [reflexivity|].
      by rewrite lookup_insert_eq.
    + done.
    + done.
  - split; [|split; [|split]].
    + intros name. rewrite !lookup_insert, lookup_empty.
      repeat case_decide; subst; split;
        try (intros [? ?]; done); try (intros [? [? | ?]]; by subst);
        intros _; (split; [done|]); eauto.
    + done.
    + intros _. eexists. split; [reflexivity|]. by rewrite lookup_insert_eq.
    + done.
  - split; [|split; [|split]].
    + intros name. rewrite lookup_empty. split; [intros [? ?]; done|].
      intros [? [? | ?]]; by subst.
    + done.
    + done.
    + done.
Qed.

(** A request that names degree centrality and an unknown metric: one
    entry, no error, and the generator is where it was. *)
Lemma evaluate_reports_requested_witness :
  ∃ results,
    evaluate elements ["degree_centrality"; "pagerank"] sample_rng sample_graph
    = (Returned (results, sample_rng), sample_graph) ∧
    is_Some (results !! "degree_centrality") ∧
    results !! "pagerank" = None.
Proof.
  destruct (evaluate_reports_requested elements
              ["degree_centrality"; "pagerank"] sample_rng sample_graph)
    as (results & rng' & Hrun & Hkeys & _ & _ & Hrng).
  assert ("betweenness_centrality" ∉ ["degree_centrality"; "pagerank"]) as Hn
    by (apply (bool_decide_unpack _); by vm_compute).
  rewrite (Hrng Hn) in Hrun. exists results. split; [exact Hrun|]. split.
  - apply Hkeys. split; [left | by left].
  - apply eq_None_not_Some. intros Hs. apply Hkeys in Hs as [_ [Hs | Hs]];
      discriminate Hs.
Defined.

(** ** [detect_communities]: the sizes of the two halves *)

(** X9. The two sets [detect_communities] returns have sizes [n // 2] and
    [n - n // 2] for a graph of [n] nodes: they differ by at most one, and
    with a single node the first community is empty. *)
Theorem detect_communities_sizes set_iter method self :
  iteration_order set_iter →
  ∃ first second,
    detect_communities set_iter method self = (Returned [first; second], self) ∧
    size first = (size (nodes self) / 2)%nat ∧
    size second = (size (nodes self) - size (nodes self) / 2)%nat.
Proof.
  intros Hi. eexists _, _. split; [apply detect_communities_run|].
  pose proof (iteration_order_NoDup set_iter (nodes self) Hi) as Hnd.
  pose proof (iteration_order_length set_iter (nodes self) Hi) as Hlen.
  set (l := set_iter (nodes self)) in *.
  assert ((length l / 2 ≤ length l)%nat) as Hmid
    by (apply Nat.Div0.div_le_upper_bound; lia).
  split.
  - rewrite size_list_to_set.
    + rewrite length_take. rewrite <- Hlen. lia.
    + rewrite <- (take_drop (length l / 2)%nat l) in Hnd.
      by apply NoDup_app in Hnd as (? & _ & _).
  - rewrite size_list_to_set.
    + rewrite length_drop. by rewrite <- Hlen.
    + rewrite <- (take_drop (length l / 2)%nat l) in Hnd.
      by apply NoDup_app in Hnd as (_ & _ & ?).
Qed.

Lemma detect_communities_sizes_witness :
  iteration_order elements ∧
  ∃ first second,
    detect_communities elements "louvain" single_node
    = (Returned [first; second], single_node) ∧
    size first = 0%nat ∧ size second = 1%nat.
Proof.
  split; [exact iteration_order_elements|].
  exact (detect_communities_sizes elements "louvain" single_node
           iteration_order_elements).
Defined.

(** ** Counting edge ends over all nodes *)

Lemma sum_list_fmap_add {A} (f g : A → nat) (l : list A) :
  sum_list ((λ x, f x + g x)%nat <$> l)
  = (sum_list (f <$> l) + sum_list (g <$> l))%nat.
Proof. induction l as [|x l IH]; csimpl; [done|]. rewrite IH. lia. Qed.

Lemma sum_list_fmap_le {A} (f : A → nat) (c : nat) (l : list A) :
  (∀ x, x ∈ l → (f x ≤ c)%nat) →
  (sum_list (f <$> l) ≤ length l * c)%nat.
Proof.
  induction l as [|x l IH]; intros Hle; csimpl; [lia|].
  pose proof (Hle x (list_elem_of_here x l)).
  assert (sum_list (f <$> l) ≤ length l * c)%nat
    by (apply IH; intros y Hy; apply Hle; by right).
  lia.
Qed.

Lemma sum_list_fmap_ext {A} (f g : A → nat) (l : list A) :
  (∀ x, f x = g x) → sum_list (f <$> l) = sum_list (g <$> l).
Proof. intros Hfg. induction l as [|x l IH]; csimpl; [done|]. by rewrite Hfg, IH. Qed.

Lemma sum_indicator (a : string) (l : list string) :
  NoDup l →
  sum_list ((λ x, if decide (a = x) then 1 else 0)%nat <$> l)
  = if decide (a ∈ l) then 1%nat else 0%nat.
Proof.
  induction 1 as [|x l Hx Hnd IH]; csimpl.
  - done.
  - rewrite IH. destruct (decide (a = x)) as [->|Hne].
    + rewrite decide_False by done. rewrite decide_True by (by left). done.
    + destruct (decide (a ∈ l)) as [Hin|Hnin].
      * by rewrite decide_True by (by right).
      * rewrite decide_False; [done|].
        intros [?|?]%elem_of_cons; done.
Qed.

Lemma sum_end_count (proj : string * string * Q → string)
    (l : list string) (es : list (string * string * Q)) :
  NoDup l → (∀ edge, edge ∈ es → proj edge ∈ l) →
  sum_list ((λ a, length (filter (λ edge, proj edge = a) es)) <$> l)
  = length es.
Proof.
  intros Hnd. induction es as [|edge es IH]; intros Hin.
  - clear. induction l as [|x l IHl]; [done|].
    rewrite fmap_cons. cbn [sum_list]. by rewrite IHl.
  - rewrite (sum_list_fmap_ext _
      (λ a, (if decide (proj edge = a) then 1 else 0)
            + length (filter (λ edge, proj edge = a) es))%nat).
    + rewrite sum_list_fmap_add, (sum_indicator _ l Hnd).
      rewrite decide_True by (apply Hin; by left).
      rewrite IH by (intros e He; apply Hin; by right). done.
    + intros a. rewrite filter_cons. by case_decide.
Qed.

(** X10. In every graph built by [add_node] and [add_edge] calls the
    lengths of all neighbour lists add up to twice the number of stored
    edges when the graph is undirected, and to the number of stored edges
    when it is directed. *)
Theorem degree_sum_counts_edges self :
  reachable self →
  degree_sum self
  = ((if directed self then 1 else 2) * length (edges self))%nat.
Proof.
  intros Hr. unfold degree_sum.
  destruct (reachable_invariant self Hr) as [He _].
  rewrite (sum_list_fmap_ext _
    (λ node, out_count node (edges self)
             + if directed self then 0 else in_count node (edges self))%nat).
  2:{ intros node.
      by rewrite (neighbours_from_edges self Hr), length_edge_entries. }
  rewrite sum_list_fmap_add. unfold out_count.
  rewrite (sum_end_count (λ edge, edge.1.1)).
  2: apply NoDup_elements.
  2:{ intros [[s t] w] Hin. apply elem_of_elements. by apply (He s t w). }
  destruct (directed self).
  - assert (sum_list ((λ _ : string, 0%nat) <$> elements (nodes self)) = 0%nat)
      as ->; [|lia].
    induction (elements (nodes self)) as [|x l IH]; csimpl; [done|]. by rewrite IH.
  - unfold in_count. rewrite (sum_end_count (λ edge, edge.1.2)); [lia| |].
    + apply NoDup_elements.
    + intros [[s t] w] Hin. apply elem_of_elements. by apply (He s t w).
Qed.

Lemma degree_sum_counts_edges_witness :
  reachable sample_graph ∧ degree_sum sample_graph = 4%nat ∧
  length (edges sample_graph) = 2%nat.
Proof.
  split; [exact reachable_sample_graph|].
  split; [|reflexivity].
  exact (degree_sum_counts_edges sample_graph reachable_sample_graph).
Defined.

(** ** Bounds on the density *)

Lemma reachable_add_edges edge_list self :
  reachable self → reachable (add_edges edge_list self).
Proof.
  revert self. induction edge_list as [|edge rest IH]; intros self Hr; [done|].
  change (add_edges (edge :: rest) self)
    with (add_edges rest (exec (add_edge edge.1 edge.2 1%Q) self)).
  by apply IH, reachable_add_edge.
Qed.

Lemma simple_edge_bound self :
  reachable self → simple self →
  ((if directed self then 1 else 2) * length (edges self)
   ≤ size (nodes self) * (size (nodes self) - 1))%nat.
Proof.
  intros Hr Hs. rewrite <- (degree_sum_counts_edges self Hr).
  unfold degree_sum.
  replace (size (nodes self)) with (length (elements (nodes self))) at 1
    by done.
  apply sum_list_fmap_le. intros node Hin. apply elem_of_elements in Hin.
  destruct (reachable_invariant self Hr) as [_ Ha].
  unfold neighbours.
  destruct (adjacency self !! node) as [l|] eqn:E; simpl; [|lia].
  destruct (Ha _ _ E) as [Hk Hl]. destruct (Hs _ _ E) as [Hnd Hself].
  pose proof (neighbours_bound (nodes self) node l Hnd Hself Hk Hl). lia.
Qed.

(** X11. The density [process] reports is never negative, and when the
    graph it has built has no parallel edges and no self-loops the density is
    at most 1/2 for an undirected graph and at most 1 for a directed one:
    every stored edge is counted once against the [n * (n - 1)] ordered
    pairs. *)
Theorem process_density_bounds edge_list self :
  reachable self →
  ∃ report self',
    process edge_list self = (Returned report, self') ∧
    (0 <= density report)%Q ∧
    (simple self' →
     (density report <= if directed self' then 1 else 1 # 2)%Q).
Proof.
  intros Hr. eexists _, _. split; [apply process_run|]. cbv zeta. simpl.
  pose proof (reachable_add_edges edge_list self Hr) as Hr'.
  set (self' := add_edges edge_list self) in *.
  destruct (Z.ltb_spec 1 (Z.of_nat (size (nodes self')))) as [Hn|Hn].
  - assert (0 < inject_Z (Z.of_nat (size (nodes self'))
                          * (Z.of_nat (size (nodes self')) - 1)))%Q as Hpos.
    { change 0%Q with (inject_Z 0). rewrite <- Zlt_Qlt. nia. }
    split.
    + apply Qle_shift_div_l; [exact Hpos|]. rewrite Qmult_0_l.
      change 0%Q with (inject_Z 0). rewrite <- Zle_Qle. lia.
    + intros Hs. pose proof (simple_edge_bound self' Hr' Hs) as Hb.
      apply Qle_shift_div_r; [exact Hpos|].
      destruct (directed self').
      * rewrite Qmult_1_l, <- Zle_Qle. nia.
      * unfold Qle, Qmult, inject_Z. simpl. nia.
  - split; [done|]. intros _. by destruct (directed self').
Qed.

Lemma process_density_bounds_witness :
  reachable sample_graph ∧ simple sample_graph ∧
  ∃ report,
    process [] sample_graph = (Returned report, sample_graph) ∧
    (0 <= density report)%Q ∧ (density report <= 1 # 2)%Q.
Proof.
  assert (simple sample_graph) as Hs
    by (unfold simple; apply (bool_decide_unpack _); by vm_compute).
  split; [exact reachable_sample_graph|]. split; [exact Hs|].
  destruct (process_density_bounds [] sample_graph reachable_sample_graph)
    as (report & self' & Hrun & Hlo & Hhi).
  assert (self' = sample_graph) as ->.
  { rewrite process_run in Hrun. by injection Hrun. }
  exists report. split; [exact Hrun|]. split; [exact Hlo|]. exact (Hhi Hs).
Defined.

End AnalyzerFacts.

(** * Properties of the dispatch on names *)

Module NxAnalyzerFacts.
Import NxAnalyzer.

Section Library.

Context {Graph Node Scores : Type} `{Countable Node}.
Variable nx_degree_centrality : Graph → Outcome Scores.
Variable nx_betweenness_centrality : Graph → Outcome Scores.
Variable nx_closeness_centrality : Graph → Outcome Scores.
Variable nx_eigenvector_centrality : Graph → Z → Outcome Scores.
Variable nx_pagerank : Graph → Outcome Scores.
Variable best_partition : Graph → Outcome (gmap Node nat).
Variable label_propagation_communities : Graph → Outcome (list (list Node)).
Variable greedy_modularity_communities : Graph → Outcome (list (list Node)).

Local Abbreviation centrality :=
  (calculate_centrality nx_degree_centrality nx_betweenness_centrality
     nx_closeness_centrality nx_eigenvector_centrality nx_pagerank).
Local Abbreviation communities :=
  (detect_communities best_partition label_propagation_communities
     greedy_modularity_communities).

Lemma calculate_centrality_unknown graph measure :
  measure ∉ centrality_measures →
  centrality graph measure
  = Raised (ValueError ("Unknown centrality measure: " +:+ measure)).
Proof.
  intros Hm. unfold calculate_centrality, centrality_measures in *.
  repeat (case_decide; [subst; exfalso; apply Hm; set_solver|]).
  reflexivity.
Qed.

Lemma detect_communities_unknown graph algorithm :
  algorithm ∉ community_algorithms →
  communities graph algorithm
  = Raised (ValueError ("Unknown algorithm: " +:+ algorithm)).
Proof.
  intros Hm. unfold detect_communities, community_algorithms in *.
  repeat (case_decide; [subst; exfalso; apply Hm; set_solver|]).
  reflexivity.
Qed.

(** C6, as amended. An unrecognized measure passed to
    [calculate_centrality], or an unrecognized algorithm passed to the
    library-backed [detect_communities], makes the call raise [ValueError]
    with the message naming the argument; for a recognized name the outcome
    is exactly the outcome of the library function the name selects, so the
    dispatch itself never raises for it. *)
Theorem unknown_name_raises_ValueError graph name :
  (name ∉ centrality_measures →
   centrality graph name
   = Raised (ValueError ("Unknown centrality measure: " +:+ name))) ∧
  (name ∉ community_algorithms →
   communities graph name
   = Raised (ValueError ("Unknown algorithm: " +:+ name))) ∧
  centrality graph "degree" = nx_degree_centrality graph ∧
  centrality graph "betweenness" = nx_betweenness_centrality graph ∧
  centrality graph "closeness" = nx_closeness_centrality graph ∧
  centrality graph "eigenvector" = nx_eigenvector_centrality graph 1000 ∧
  centrality graph "pagerank" = nx_pagerank graph ∧
  communities graph "louvain" = best_partition graph ∧
  communities graph "label_propagation"
  = outcome_map number_communities (label_propagation_communities graph) ∧
  communities graph "greedy_modularity"
  = outcome_map number_communities (greedy_modularity_communities graph).
Proof.
  split; [apply calculate_centrality_unknown|].
  split; [apply detect_communities_unknown|].
  repeat split.
Qed.

End Library.

(** The numbering loop on two communities: later communities get later
    ids. *)
Example number_communities_sample :
  number_communities [["a"; "b"]; ["c"]]
  = <["a" := 0%nat]> (<["b" := 0%nat]> (<["c" := 1%nat]> ∅)).
Proof. by vm_compute. Qed.

Lemma unknown_name_raises_ValueError_witness :
  ("katz" ∉ centrality_measures) ∧ ("katz" ∉ community_algorithms) ∧
  calculate_centrality unit_scores unit_scores unit_scores unit_scores_iter
    unit_scores tt "katz"
  = Raised (ValueError "Unknown centrality measure: katz") ∧
  detect_communities unit_partition unit_communities unit_communities tt "katz"
  = Raised (ValueError "Unknown algorithm: katz").
Proof.
  assert ("katz" ∉ centrality_measures) as H1
    by (apply (bool_decide_unpack _); by vm_compute).
  assert ("katz" ∉ community_algorithms) as H2
    by (apply (bool_decide_unpack _); by vm_compute).
  destruct (unknown_name_raises_ValueError unit_scores unit_scores unit_scores
              unit_scores_iter unit_scores unit_partition unit_communities
              unit_communities tt "katz") as (Hc & Hd & _).
  split; [exact H1|]. split; [exact H2|].
  split; [exact (Hc H1) | exact (Hd H2)].
Defined.

(** C6 fails as stated: the stub [detect_communities] of a fresh analyzer
    is handed a name that no dispatch recognizes and returns its usual list
    of two sets (both empty here); no error is raised. *)
Lemma stub_detect_communities_accepts_unknown_method :
  ("no_such_method" ∉ community_algorithms) ∧
  Analyzer.detect_communities elements "no_such_method" (Analyzer.init false)
  = (Returned [∅; ∅], Analyzer.init false) ∧
  ¬ raises
      (Analyzer.detect_communities elements "no_such_method"
         (Analyzer.init false)).1.
Proof.
  split; [apply (bool_decide_unpack _); by vm_compute|].
  split; [by vm_compute|]. intros [e He]. by vm_compute in He.
Qed.

(** * Further properties of the library-backed analyzer *)

(** ** Ranking *)

Lemma insert_desc_perm {A} (key : A → Q) x l :
  insert_desc key x l ≡ₚ x :: l.
Proof.
  induction l as [|y l IH]; simpl; [done|].
  destruct (Qle_bool (key y) (key x)); [done|].
  rewrite IH. apply Permutation_swap.
Qed.

Lemma sorted_desc_perm {A} (key : A → Q) l : sorted_desc key l ≡ₚ l.
Proof.
  induction l as [|x l IH]; simpl; [done|].
  by rewrite insert_desc_perm, IH.
Qed.

Lemma insert_desc_descending {A} (key : A → Q) x l :
  descending key l → descending key (insert_desc key x l).
Proof.
  unfold descending. induction 1 as [|y l Hl IH Hy]; simpl.
  - by repeat constructor.
  - destruct (Qle_bool (key y) (key x)) eqn:E.
    + apply Qle_bool_iff in E. constructor; [by constructor|].
      constructor; [done|]. eapply Forall_impl; [exact Hy|].
      intros z Hz. simpl in Hz. by eapply Qle_trans.
    + constructor; [done|]. rewrite insert_desc_perm. constructor; [|done].
      apply Qlt_le_weak, Qnot_le_lt. intros Hle.
      apply Qle_bool_iff in Hle. congruence.
Qed.

Lemma sorted_desc_descending {A} (key : A → Q) l :
  descending key (sorted_desc key l).
Proof.
  induction l as [|x l IH]; simpl; [constructor|].
  by apply insert_desc_descending.
Qed.

Lemma insert_desc_filter {A} (key : A → Q) (q : Q) x l :
  filter (λ y, Qeq_bool (key y) q = true) (insert_desc key x l)
  = filter (λ y, Qeq_bool (key y) q = true) (x :: l).
Proof.
  induction l as [|y l IH]; simpl; [done|].
  destruct (Qle_bool (key y) (key x)) eqn:E; [done|].
  rewrite filter_cons, IH, !filter_cons.
  destruct (decide (Qeq_bool (key y) q = true)) as [Hy|Hy]; [|done].
  destruct (decide (Qeq_bool (key x) q = true)) as [Hx|Hx]; [|done].
  apply Qeq_bool_iff in Hx, Hy.
  assert (Qle_bool (key y) (key x) = true); [|congruence].
  apply Qle_bool_iff. rewrite Hx, Hy. apply Qle_refl.
Qed.

Lemma sorted_desc_stable {A} (key : A → Q) (q : Q) l :
  filter (λ y, Qeq_bool (key y) q = true) (sorted_desc key l)
  = filter (λ y, Qeq_bool (key y) q = true) l.
Proof.
  induction l as [|x l IH]; simpl; [done|].
  by rewrite insert_desc_filter, !filter_cons, IH.
Qed.

Lemma length_slice_to {A} (l : list A) k :
  length (slice_to l k)
  = if 0 <=? k then (Z.to_nat k `min` length l)%nat
    else (length l - Z.to_nat (- k))%nat.
Proof.
  unfold slice_to. destruct (0 <=? k); rewrite length_take; lia.
Qed.

(** The ranking the two methods share: [top_k key l k] and what it leaves
    out are together the entries of [l]; the result is in descending order;
    nothing left out has a higher key than something returned. *)
Lemma top_k_spec {A} (key : A → Q) (l : list A) (k : Z) :
  ∃ rest,
    top_k key l k ++ rest ≡ₚ l ∧
    descending key (top_k key l k) ∧
    (∀ x y, x ∈ top_k key l k → y ∈ rest → (key y <= key x)%Q).
Proof.
  unfold top_k, slice_to.
  set (n := if 0 <=? k then Z.to_nat k
            else (length (sorted_desc key l) - Z.to_nat (- k))%nat).
  assert ((if 0 <=? k then take (Z.to_nat k) (sorted_desc key l)
           else take (length (sorted_desc key l) - Z.to_nat (- k))
                  (sorted_desc key l))
          = take n (sorted_desc key l)) as -> by (unfold n; by destruct (0 <=? k)).
  exists (drop n (sorted_desc key l)).
  pose proof (sorted_desc_descending key l) as Hs. unfold descending in *.
  rewrite <- (take_drop n (sorted_desc key l)) in Hs.
  apply StronglySorted_app in Hs as (Hdom & Ht & _).
  split; [by rewrite take_drop, sorted_desc_perm|]. split; [done|].
  intros x y Hx Hy. by apply Hdom.
Qed.

Section RankingFacts.

Context {Graph Node Scores : Type}.
Variable nx_degree_centrality : Graph → Outcome Scores.
Variable nx_betweenness_centrality : Graph → Outcome Scores.
Variable nx_closeness_centrality : Graph → Outcome Scores.
Variable nx_eigenvector_centrality : Graph → Z → Outcome Scores.
Variable nx_pagerank : Graph → Outcome Scores.
Variable scores_items : Scores → list (Node * Q).

(** X12. When the centrality computation returns, [get_top_nodes] returns
    the [k] best entries for [k >= 0] (all of them when there are fewer):
    they are entries of the centrality, listed in descending order of score,
    and no entry left out scores higher than an entry returned. *)
Theorem get_top_nodes_ranks graph measure k centrality :
  0 ≤ k →
  calculate_centrality nx_degree_centrality nx_betweenness_centrality
    nx_closeness_centrality nx_eigenvector_centrality nx_pagerank
    graph measure = Returned centrality →
  ∃ top rest,
    get_top_nodes nx_degree_centrality nx_betweenness_centrality
      nx_closeness_centrality nx_eigenvector_centrality nx_pagerank
      scores_items graph measure k = Returned top ∧
    top ++ rest ≡ₚ scores_items centrality ∧
    descending snd top ∧
    (∀ x y, x ∈ top → y ∈ rest → (y.2 <= x.2)%Q) ∧
    length top = (Z.to_nat k `min` length (scores_items centrality))%nat.
Proof.
  intros Hk Hc. unfold get_top_nodes. rewrite Hc. simpl.
  destruct (top_k_spec snd (scores_items centrality) k)
    as (rest & Hperm & Hdesc & Hdom).
  eexists _, rest. split; [reflexivity|]. split; [done|]. split; [done|].
  split; [done|].
  unfold top_k. rewrite length_slice_to.
  destruct (Z.leb_spec 0 k); [|lia].
  by rewrite (Permutation_length (sorted_desc_perm snd _)).
Qed.

(** X13. A negative [k] is not an error: [get_top_nodes] then returns the
    ranking without its last [-k] entries (nothing when there are no more
    than [-k] entries). *)
Theorem get_top_nodes_negative_k graph measure k centrality :
  k < 0 →
  calculate_centrality nx_degree_centrality nx_betweenness_centrality
    nx_closeness_centrality nx_eigenvector_centrality nx_pagerank
    graph measure = Returned centrality →
  ∃ top dropped,
    get_top_nodes nx_degree_centrality nx_betweenness_centrality
      nx_closeness_centrality nx_eigenvector_centrality nx_pagerank
      scores_items graph measure k = Returned top ∧
    get_top_nodes nx_degree_centrality nx_betweenness_centrality
      nx_closeness_centrality nx_eigenvector_centrality nx_pagerank
      scores_items graph measure (Z.of_nat (length (scores_items centrality)))
    = Returned (top ++ dropped) ∧
    length dropped
    = (Z.to_nat (- k) `min` length (scores_items centrality))%nat.
Proof.
  intros Hk Hc. unfold get_top_nodes. rewrite Hc. simpl.
  unfold top_k, slice_to.
  pose proof (Permutation_length (sorted_desc_perm snd (scores_items centrality)))
    as Hlen.
  set (s := sorted_desc snd (scores_items centrality)) in *.
  destruct (Z.leb_spec 0 k); [lia|].
  destruct (Z.leb_spec 0 (Z.of_nat (length (scores_items centrality)))); [|lia].
  exists (take (length s - Z.to_nat (- k)) s),
         (drop (length s - Z.to_nat (- k)) s).
  split; [done|]. split.
  - rewrite take_drop, Nat2Z.id, <- Hlen. by rewrite firstn_all.
  - rewrite length_drop. lia.
Qed.

(** X14. Whatever [k] is, [get_top_nodes] fails exactly as the centrality
    computation fails; in particular an unrecognized measure raises
    [ValueError] and nothing is ranked. *)
Theorem get_top_nodes_propagates graph measure k :
  (∀ e,
     calculate_centrality nx_degree_centrality nx_betweenness_centrality
       nx_closeness_centrality nx_eigenvector_centrality nx_pagerank
       graph measure = Raised e →
     get_top_nodes nx_degree_centrality nx_betweenness_centrality
       nx_closeness_centrality nx_eigenvector_centrality nx_pagerank
       scores_items graph measure k = Raised e) ∧
  (measure ∉ centrality_measures →
   get_top_nodes nx_degree_centrality nx_betweenness_centrality
     nx_closeness_centrality nx_eigenvector_centrality nx_pagerank
     scores_items graph measure k
   = Raised (ValueError ("Unknown centrality measure: " +:+ measure))).
Proof.
  split.
  - intros e He. unfold get_top_nodes. by rewrite He.
  - intros Hm. unfold get_top_nodes, calculate_centrality.
    unfold centrality_measures in Hm.
    repeat (case_decide; [subst; exfalso; apply Hm; set_solver|]).
    reflexivity.
Qed.

(** X15. The ranking is stable: among the entries that share a score, the
    order in which [get_top_nodes] lists them is the order of the
    centrality's own entries. *)
Theorem get_top_nodes_stable graph measure centrality q :
  calculate_centrality nx_degree_centrality nx_betweenness_centrality
    nx_closeness_centrality nx_eigenvector_centrality nx_pagerank
    graph measure = Returned centrality →
  ∃ top,
    get_top_nodes nx_degree_centrality nx_betweenness_centrality
      nx_closeness_centrality nx_eigenvector_centrality nx_pagerank
      scores_items graph measure (Z.of_nat (length (scores_items centrality)))
    = Returned top ∧
    filter (λ entry, Qeq_bool entry.2 q = true) top
    = filter (λ entry, Qeq_bool entry.2 q = true) (scores_items centrality).
Proof.
  intros Hc. unfold get_top_nodes. rewrite Hc. simpl. eexists.
  split; [reflexivity|]. unfold top_k, slice_to.
  destruct (Z.leb_spec 0 (Z.of_nat (length (scores_items centrality)))); [|lia].
  rewrite Nat2Z.id.
  rewrite <- (Permutation_length (sorted_desc_perm snd (scores_items centrality))).
  rewrite firstn_all. apply (sorted_desc_stable snd).
Qed.

End RankingFacts.

Section LinkFacts.

Context {Graph Node : Type}.
Variable nx_common_neighbor_centrality : Graph → Outcome (list (Node * Node * Q)).
Variable nx_jaccard_coefficient : Graph → Outcome (list (Node * Node * Q)).
Variable nx_adamic_adar_index : Graph → Outcome (list (Node * Node * Q)).
Variable nx_preferential_attachment : Graph → Outcome (list (Node * Node * Q)).

(** X16. [predict_links] raises [ValueError] for a method name it does not
    recognize; and whenever it returns, the method was one of the four
    recognized names, the predictions are in descending order of score and,
    for [k >= 0], there are at most [k] of them. *)
Theorem predict_links_ranks graph method k :
  (method ∉ link_methods →
   predict_links nx_common_neighbor_centrality nx_jaccard_coefficient
     nx_adamic_adar_index nx_preferential_attachment graph method k
   = Raised (ValueError ("Unknown method: " +:+ method))) ∧
  (∀ top,
     predict_links nx_common_neighbor_centrality nx_jaccard_coefficient
       nx_adamic_adar_index nx_preferential_attachment graph method k = Returned top →
     method ∈ link_methods ∧ descending snd top ∧
     (0 ≤ k → (length top ≤ Z.to_nat k)%nat)).
Proof.
  unfold predict_links, link_methods. split.
  - intros Hm.
    repeat (case_decide; [subst; exfalso; apply Hm; set_solver|]).
    reflexivity.
  - intros top Hret.
    assert (∀ o : Outcome (list (Node * Node * Q)),
              outcome_map (λ preds, top_k snd preds k) o = Returned top →
              descending snd top ∧ (0 ≤ k → (length top ≤ Z.to_nat k)%nat))
      as Hrank.
    { intros [preds|e] Ho; [|discriminate Ho]. simpl in Ho.
      injection Ho as <-. destruct (top_k_spec snd preds k) as (_ & _ & Hd & _).
      split; [done|]. intros Hk. unfold top_k. rewrite length_slice_to.
      destruct (Z.leb_spec 0 k); lia. }
    repeat case_decide; subst; try discriminate Hret;
      (split; [set_solver | exact (Hrank _ Hret)]).
Qed.

End LinkFacts.

(** On the sample scores the two best entries are b and d; the tie between
    a and c is listed in dictionary order. *)
Lemma get_top_nodes_ranks_witness :
  (0 ≤ 2) ∧
  calculate_centrality unit_scores unit_scores unit_scores unit_scores_iter
    unit_scores tt "degree" = Returned tt ∧
  get_top_nodes unit_scores unit_scores unit_scores unit_scores_iter
    unit_scores unit_items tt "degree" 2
  = Returned [("b", 3 # 4); ("d", 1 # 2)]%Q.
Proof.
  assert (0 ≤ 2) as Hk by lia.
  destruct (get_top_nodes_ranks unit_scores unit_scores unit_scores
              unit_scores_iter unit_scores unit_items tt "degree" 2 tt Hk
              eq_refl) as (top & rest & Hrun & _).
  split; [exact Hk|]. split; [reflexivity|].
  rewrite Hrun. f_equal. injection Hrun as <-. by vm_compute.
Defined.

Lemma get_top_nodes_negative_k_witness :
  (-1 < 0) ∧
  get_top_nodes unit_scores unit_scores unit_scores unit_scores_iter
    unit_scores unit_items tt "degree" (-1)
  = Returned [("b", 3 # 4); ("d", 1 # 2); ("a", 1 # 4)]%Q.
Proof.
  assert (-1 < 0) as Hk by lia.
  destruct (get_top_nodes_negative_k unit_scores unit_scores unit_scores
              unit_scores_iter unit_scores unit_items tt "degree" (-1) tt Hk
              eq_refl) as (top & dropped & Hrun & _).
  split; [exact Hk|].
  rewrite Hrun. f_equal. injection Hrun as <-. by vm_compute.
Defined.

Lemma get_top_nodes_propagates_witness :
  ("katz" ∉ centrality_measures) ∧
  get_top_nodes unit_scores unit_scores unit_scores unit_scores_iter
    unit_scores unit_items tt "katz" 3
  = Raised (ValueError "Unknown centrality measure: katz").
Proof.
  assert ("katz" ∉ centrality_measures) as Hm
    by (apply (bool_decide_unpack _); by vm_compute).
  split; [exact Hm|].
  exact (proj2 (get_top_nodes_propagates unit_scores unit_scores unit_scores
                  unit_scores_iter unit_scores unit_items tt "katz" 3) Hm).
Defined.

Lemma get_top_nodes_stable_witness :
  ∃ top,
    get_top_nodes unit_scores unit_scores unit_scores unit_scores_iter
      unit_scores unit_items tt "degree" 4 = Returned top ∧
    filter (λ entry, Qeq_bool entry.2 (1 # 4) = true) top
    = [("a", 1 # 4); ("c", 1 # 4)]%Q.
Proof.
  destruct (get_top_nodes_stable unit_scores unit_scores unit_scores
              unit_scores_iter unit_scores unit_items tt "degree" tt (1 # 4)%Q
              eq_refl) as (top & Hrun & Hfilter).
  exists top. split; [exact Hrun|]. rewrite Hfilter. by vm_compute.
Defined.

Lemma predict_links_ranks_witness :
  ("resource_allocation" ∉ link_methods) ∧
  predict_links unit_links unit_links unit_links unit_links tt
    "resource_allocation" 10
  = Raised (ValueError "Unknown method: resource_allocation") ∧
  predict_links unit_links unit_links unit_links unit_links tt "jaccard" 1
  = Returned [("a", "c", 2 # 3)]%Q.
Proof.
  assert ("resource_allocation" ∉ link_methods) as Hm
    by (apply (bool_decide_unpack _); by vm_compute).
  split; [exact Hm|]. split.
  - exact (proj1 (predict_links_ranks unit_links unit_links unit_links
                    unit_links tt "resource_allocation" 10) Hm).
  - by vm_compute.
Defined.

(** ** Numbering communities *)

Section NumberingFacts.

Context {Node : Type} `{Countable Node}.

Lemma assign_lookup (idx : nat) (community : list Node) (m : gmap Node nat)
    (node : Node) :
  foldl (λ c node, <[node := idx]> c) m community !! node
  = if decide (node ∈ community) then Some idx else m !! node.
Proof.
  revert m. induction community as [|x community IH]; intros m.
  - rewrite decide_False; [done | apply not_elem_of_nil].
  - cbn [foldl]. rewrite IH. case_decide as Hin.
    + rewrite decide_True; [done | by right].
    + rewrite lookup_insert. case_decide as Hx.
      * subst. rewrite decide_True; [done | by left].
      * rewrite decide_False; [done|].
        intros [-> | Hn]%elem_of_cons; [done | by apply Hin].
Qed.

Lemma number_communities_snoc (cs : list (list Node)) (c : list Node) :
  number_communities (cs ++ [c])
  = foldl (λ m node, <[node := length cs]> m) (number_communities cs) c.
Proof.
  unfold number_communities. rewrite imap_app, foldl_app. simpl.
  by rewrite Nat.add_0_r.
Qed.

(** X17. The numbering loop gives a node the index of the last community
    that contains it, and no number to a node that is in none; so when the
    communities share no node, a node's number is the index of its
    community. *)
Theorem number_communities_index (cs : list (list Node)) :
  (∀ node idx,
     number_communities cs !! node = Some idx ↔
     ∃ c, cs !! idx = Some c ∧ node ∈ c ∧
          ∀ j c', (idx < j)%nat → cs !! j = Some c' → node ∉ c') ∧
  (disjoint_communities cs →
   ∀ node idx,
     number_communities cs !! node = Some idx ↔
     ∃ c, cs !! idx = Some c ∧ node ∈ c).
Proof.
  assert (∀ node idx,
     number_communities cs !! node = Some idx ↔
     ∃ c, cs !! idx = Some c ∧ node ∈ c ∧
          ∀ j c', (idx < j)%nat → cs !! j = Some c' → node ∉ c') as Hlast.
  { induction cs as [|c cs IH] using rev_ind; intros node idx.
    - unfold number_communities. simpl. rewrite lookup_empty. split; [done|].
      intros (c & Hc & _). by rewrite lookup_nil in Hc.
    - rewrite number_communities_snoc, assign_lookup.
      destruct (decide (node ∈ c)) as [Hin|Hnin].
      + split.
        * intros [= <-]. exists c. split; [by apply list_lookup_middle|].
          split; [done|]. intros j c' Hj Hl.
          apply lookup_lt_Some in Hl. rewrite length_app in Hl. simpl in Hl. lia.
        * intros (c0 & Hc0 & Hn0 & Hlater).
          pose proof (lookup_lt_Some _ _ _ Hc0) as Hlt.
          rewrite length_app in Hlt. simpl in Hlt.
          destruct (decide (idx = length cs)) as [->|Hne]; [done|].
          exfalso. apply (Hlater (length cs) c); [lia| |done].
          by apply list_lookup_middle.
      + rewrite IH. split.
        * intros (c0 & Hc0 & Hn0 & Hlater). exists c0.
          split; [by apply lookup_app_l_Some|]. split; [done|].
          intros j c' Hj Hl. apply lookup_app_Some in Hl as [Hl | [Hge Hl]].
          -- by apply (Hlater j c').
          -- apply list_lookup_singleton_Some in Hl as [_ <-]. done.
        * intros (c0 & Hc0 & Hn0 & Hlater).
          apply lookup_app_Some in Hc0 as [Hc0 | [Hge Hc0]].
          -- exists c0. split; [done|]. split; [done|].
             intros j c' Hj Hl. apply (Hlater j c'); [done|].
             by apply lookup_app_l_Some.
          -- apply list_lookup_singleton_Some in Hc0 as [_ <-]. done. }
  split; [exact Hlast|]. intros Hdis node idx. rewrite Hlast. split.
  - intros (c & Hc & Hn & _). eauto.
  - intros (c & Hc & Hn). exists c. split; [done|]. split; [done|].
    intros j c' Hj Hl Hn'. pose proof (Hdis idx j c c' node Hc Hl Hn Hn'). lia.
Qed.

End NumberingFacts.

(** A node listed in two communities gets the later index; the numbering
    of a partition follows the communities. *)
Lemma number_communities_index_witness :
  number_communities [["a"; "b"]; ["b"; "c"]] !! "b" = Some 1%nat ∧
  disjoint_communities [["a"; "b"]; ["c"]] ∧
  number_communities [["a"; "b"]; ["c"]] !! "b" = Some 0%nat.
Proof.
  assert (disjoint_communities [["a"; "b"]; ["c"]]) as Hdis.
  { intros [|[|i]] [|[|j]] ci cj node Hi Hj Hni Hnj; simpl in Hi, Hj;
      try done; simplify_eq; set_solver. }
  split; [|split; [exact Hdis|]].
  - apply (proj1 (number_communities_index [["a"; "b"]; ["b"; "c"]])).
    exists ["b"; "c"]. split; [done|]. split; [set_solver|].
    intros [|[|j]] c' Hj Hl; simpl in Hl; try lia; done.
  - apply (proj2 (number_communities_index [["a"; "b"]; ["c"]]) Hdis).
    exists ["a"; "b"]. split; [done|]. set_solver.
Defined.

(** ** [calculate_modularity]: from the assignment back to sets *)

Section ModularityFacts.

Context {Graph Node : Type} `{Countable Node}.
Variable nx_modularity : Graph → list (gset Node) → Outcome Q.
Variable dict_items : gmap Node nat → list (Node * nat).
Variable dict_values : gmap nat (gset Node) → list (gset Node).

Lemma community_sets_snoc (items : list (Node * nat)) node c c' :
  community_sets (items ++ [(node, c)]) !! c'
  = if decide (c = c')
    then Some ({[node]} ∪ default ∅ (community_sets items !! c))
    else community_sets items !! c'.
Proof.
  unfold community_sets. rewrite foldl_app. cbn [foldl].
  set (sets := foldl _ ∅ items).
  rewrite lookup_alter. case_decide as Hc.
  - subst c'. destruct (sets !! c) as [S|] eqn:E; simpl.
    + by rewrite E.
    + by rewrite lookup_insert_eq.
  - destruct (sets !! c) as [S|] eqn:E; [done|]. by rewrite lookup_insert_ne.
Qed.

Lemma community_sets_members (items : list (Node * nat)) c S :
  community_sets items !! c = Some S →
  (∀ node, node ∈ S ↔ (node, c) ∈ items) ∧ ∃ node, node ∈ S.
Proof.
  revert S. induction items as [|[node0 c0] items IH] using rev_ind; intros S.
  - unfold community_sets. simpl. by rewrite lookup_empty.
  - rewrite community_sets_snoc. case_decide as Hc.
    + subst c0. intros [= <-]. split; [|exists node0; set_solver].
      intros node. rewrite elem_of_app, list_elem_of_singleton.
      destruct (community_sets items !! c) as [S0|] eqn:E; simpl.
      * destruct (IH S0 eq_refl) as [Hmem _]. rewrite <- Hmem.
        clear. set_solver.
      * split; [set_solver|]. intros [Hin | [= ->]]; [|set_solver].
        exfalso. clear IH. revert E.
        induction items as [|[n1 c1] items IH] using rev_ind;
          [by apply elem_of_nil in Hin|].
        rewrite community_sets_snoc. case_decide; [done|].
        apply elem_of_app in Hin as [Hin | Hin]; [by apply IH|].
        apply list_elem_of_singleton in Hin. congruence.
    + intros E. destruct (IH S E) as [Hmem Hne]. split; [|done].
      intros node. rewrite Hmem, elem_of_app, list_elem_of_singleton.
      split; [by left|]. intros [Hin | [= -> ->]]; done.
Qed.

Lemma community_sets_present (items : list (Node * nat)) node c :
  (node, c) ∈ items → is_Some (community_sets items !! c).
Proof.
  induction items as [|[n1 c1] items IH] using rev_ind;
    [by intros Hin%elem_of_nil|].
  intros Hin. rewrite community_sets_snoc. case_decide; [eauto|].
  apply elem_of_app in Hin as [Hin | Hin]; [by apply IH|].
  apply list_elem_of_singleton in Hin. congruence.
Qed.

Local Abbreviation modularity :=
  (calculate_modularity nx_modularity dict_items dict_values).

(** X18. [calculate_modularity] hands the library a list of sets that is
    the partition the assignment describes: no set is empty or repeated,
    each set holds exactly the nodes of one community id, every assigned
    node is in one of the sets, and two different sets share no node. The
    outcome is the library's outcome on that list. *)
Theorem calculate_modularity_partition graph (communities : gmap Node nat) :
  items_order dict_items → values_order dict_values →
  ∃ communities_list,
    modularity graph communities = nx_modularity graph communities_list ∧
    NoDup communities_list ∧
    (∀ S, S ∈ communities_list →
       S ≠ ∅ ∧ ∃ c, ∀ node, node ∈ S ↔ communities !! node = Some c) ∧
    (∀ node c, communities !! node = Some c →
       ∃ S, S ∈ communities_list ∧ node ∈ S) ∧
    (∀ S T, S ∈ communities_list → T ∈ communities_list → S ≠ T → S ## T).
Proof.
  intros Hitems Hvalues. eexists. split; [reflexivity|].
  set (items := dict_items communities).
  set (sets := community_sets items).
  assert (∀ node c, (node, c) ∈ items ↔ communities !! node = Some c) as Hin.
  { intros node c. unfold items. rewrite (Hitems communities).
    apply elem_of_map_to_list. }
  assert (∀ S, S ∈ dict_values sets ↔ ∃ c, sets !! c = Some S) as HL.
  { intros S. rewrite (Hvalues sets), list_elem_of_fmap. split.
    - intros ([c S'] & -> & Hm). exists c. by apply elem_of_map_to_list.
    - intros [c Hc]. exists (c, S). split; [done|].
      by apply elem_of_map_to_list. }
  assert (∀ c S, sets !! c = Some S →
            S ≠ ∅ ∧ ∀ node, node ∈ S ↔ communities !! node = Some c) as Hset.
  { intros c S Hc. destruct (community_sets_members items c S Hc) as [Hm [n Hn]].
    split; [set_solver|]. intros node. by rewrite Hm, Hin. }
  assert (∀ c c' S, sets !! c = Some S → sets !! c' = Some S → c = c') as Hinj.
  { intros c c' S Hc Hc'.
    destruct (community_sets_members items c S Hc) as [Hm [n Hn]].
    destruct (Hset c S Hc) as [_ H1]. destruct (Hset c' S Hc') as [_ H2].
    pose proof (proj1 (H1 n) Hn). pose proof (proj1 (H2 n) Hn). congruence. }
  split; [|split; [|split]].
  - rewrite (Hvalues sets). apply NoDup_fmap_2_strong; [|apply NoDup_map_to_list].
    intros [c S] [c' S'] Hm Hm' Heq. simpl in Heq. subst S'.
    apply elem_of_map_to_list in Hm, Hm'. f_equal. by apply (Hinj c c' S).
  - intros S [c Hc]%HL. destruct (Hset c S Hc) as [Hne Hm]. eauto.
  - intros node c Hc. apply Hin in Hc.
    destruct (community_sets_present items node c Hc) as [S HS].
    exists S. split; [apply HL; eauto|].
    by apply (community_sets_members items c S HS).
  - intros S T [c Hc]%HL [c' Hc']%HL Hne node HnS HnT.
    destruct (Hset c S Hc) as [_ H1]. destruct (Hset c' T Hc') as [_ H2].
    apply H1 in HnS. apply H2 in HnT. assert (c = c') by congruence. subst c'.
    congruence.
Qed.

(** X19. Numbering a list of non-empty communities that share no node and
    passing the numbering to [calculate_modularity] gives the library the
    same communities back, as sets, in some order. *)
Theorem calculate_modularity_after_numbering graph (cs : list (list Node)) :
  items_order dict_items → values_order dict_values →
  disjoint_communities cs → (∀ c, c ∈ cs → c ≠ []) →
  ∃ communities_list,
    modularity graph (number_communities cs)
    = nx_modularity graph communities_list ∧
    communities_list ≡ₚ list_to_set <$> cs.
Proof.
  intros Hitems Hvalues Hdis Hne.
  destruct (calculate_modularity_partition graph (number_communities cs)
              Hitems Hvalues) as (L & Hrun & Hnd & Hsets & Hcover & _).
  exists L. split; [exact Hrun|].
  pose proof (proj2 (number_communities_index cs) Hdis) as Hidx.
  assert (∀ i c, cs !! i = Some c →
          ∀ S : gset Node,
            (∀ node, node ∈ S ↔ number_communities cs !! node = Some i) →
            S = list_to_set c) as Hsame.
  { intros i c Hc S HS. apply set_eq. intros node.
    rewrite HS, Hidx, elem_of_list_to_set. split.
    - intros (c' & Hc' & Hn). congruence.
    - intros Hn. eauto. }
  apply NoDup_Permutation; [exact Hnd| |].
  - apply NoDup_fmap_2_strong.
    + intros c c' [i Hi]%list_elem_of_lookup [j Hj]%list_elem_of_lookup Heq.
      destruct c as [|x c]; [by destruct (Hne [] ltac:(by eapply list_elem_of_lookup_2))|].
      assert (x ∈ c') as Hx.
      { apply (elem_of_list_to_set (C := gset Node)). rewrite <- Heq.
        apply elem_of_list_to_set. by left. }
      assert (i = j)
        by (apply (Hdis i j (x :: c) c' x); [done | done | by left | done]).
      congruence.
    + clear -Hdis Hne. induction cs as [|c cs' IH] using rev_ind; [constructor|].
      apply NoDup_app. split; [|split; [|apply NoDup_singleton]].
      * apply IH.
        -- intros i j ci cj node Hi Hj. apply (Hdis i j ci cj node);
             by apply lookup_app_l_Some.
        -- intros c0 Hc0. apply Hne. apply elem_of_app. by left.
      * intros c0 [i Hi]%list_elem_of_lookup Hc0.
        apply list_elem_of_singleton in Hc0. subst c0.
        destruct c as [|x c]; [apply (Hne []); [set_solver|done]|].
        pose proof (lookup_lt_Some _ _ _ Hi) as Hlt.
        assert (i = length cs'); [|lia].
        apply (Hdis i (length cs') (x :: c) (x :: c) x);
          [by apply lookup_app_l_Some | by apply list_lookup_middle
          | by left | by left].
  - intros S. rewrite list_elem_of_fmap. split.
    + intros HS. destruct (Hsets S HS) as [Hemp [i Hi]].
      assert (∃ node, node ∈ S) as [node Hn].
      { apply set_choose_L. done. }
      apply Hi in Hn. apply Hidx in Hn as (c & Hc & _).
      exists c. split; [by apply (Hsame i c Hc)|].
      by eapply list_elem_of_lookup_2.
    + intros (c & -> & [i Hc]%list_elem_of_lookup).
      destruct c as [|x c];
        [by destruct (Hne [] ltac:(by eapply list_elem_of_lookup_2))|].
      assert (number_communities cs !! x = Some i) as Hx.
      { apply Hidx. exists (x :: c). split; [done | by left]. }
      destruct (Hcover x i Hx) as (S & HS & HxS).
      destruct (Hsets S HS) as [_ [i' Hi']].
      assert (i' = i).
      { apply Hi' in HxS. congruence. }
      subst i'. by rewrite <- (Hsame i (x :: c) Hc S Hi').
Qed.

End ModularityFacts.

Lemma items_order_map_to_list :
  items_order (map_to_list : gmap string nat → list (string * nat)).
Proof. intros m. reflexivity. Qed.

Lemma values_order_gmap_values : values_order gmap_values.
Proof. intros m. reflexivity. Qed.

Lemma sample_communities_disjoint : disjoint_communities sample_communities.
Proof.
  intros [|[|i]] [|[|j]] ci cj node Hi Hj Hni Hnj; simpl in Hi, Hj;
    try done; simplify_eq; set_solver.
Qed.

Lemma sample_communities_nonempty : ∀ c, c ∈ sample_communities → c ≠ [].
Proof.
  intros c Hc. unfold sample_communities in Hc.
  apply elem_of_cons in Hc as [-> | Hc]; [done|].
  apply list_elem_of_singleton in Hc as ->. done.
Qed.

Lemma calculate_modularity_partition_witness :
  items_order (map_to_list : gmap string nat → list (string * nat)) ∧
  values_order gmap_values ∧
  ∃ communities_list,
    calculate_modularity unit_modularity map_to_list gmap_values tt
      sample_assignment
    = unit_modularity tt communities_list ∧
    NoDup communities_list ∧
    (∀ S, S ∈ communities_list →
       S ≠ ∅ ∧ ∃ c, ∀ node, node ∈ S ↔ sample_assignment !! node = Some c) ∧
    (∀ node c, sample_assignment !! node = Some c →
       ∃ S, S ∈ communities_list ∧ node ∈ S) ∧
    (∀ S T, S ∈ communities_list → T ∈ communities_list → S ≠ T → S ## T).
Proof.
  split; [exact items_order_map_to_list|].
  split; [exact values_order_gmap_values|].
  exact (calculate_modularity_partition unit_modularity map_to_list gmap_values
           tt sample_assignment items_order_map_to_list
           values_order_gmap_values).
Defined.

Lemma calculate_modularity_after_numbering_witness :
  items_order (map_to_list : gmap string nat → list (string * nat)) ∧
  values_order gmap_values ∧
  disjoint_communities sample_communities ∧
  (∀ c, c ∈ sample_communities → c ≠ []) ∧
  ∃ communities_list,
    calculate_modularity unit_modularity map_to_list gmap_values tt
      (number_communities sample_communities)
    = unit_modularity tt communities_list ∧
    communities_list ≡ₚ [{["a"; "b"]}; {["c"]}].
Proof.
  split; [exact items_order_map_to_list|].
  split; [exact values_order_gmap_values|].
  split; [exact sample_communities_disjoint|].
  split; [exact sample_communities_nonempty|].
  destruct (calculate_modularity_after_numbering unit_modularity map_to_list
              gmap_values tt sample_communities items_order_map_to_list
              values_order_gmap_values sample_communities_disjoint
              sample_communities_nonempty) as (L & Hrun & Hperm).
  exists L. split; [exact Hrun|].
  replace [{["a"; "b"]}; {["c"]}]
    with (list_to_set <$> sample_communities : list (gset string))
    by (by vm_compute).
  exact Hperm.
Defined.

End NxAnalyzerFacts.
